(** * A shallow embedding of the srttranslate translation core

    Sources embedded here:
    - [src/unnamed/part_000] (services/translationService.ts): the class
      [LRUCache] and the class [TranslationService] ([translate],
      [translateBatch], [startProcessingQueue], [processQueueIterative],
      [executeTranslationTask], [translateWithGoogleAPI]'s post-processing,
      [clearCache], [setMaxConcurrent]);
    - [src/src/hooks/useTranslation.ts]: the hook [useTranslation] with
      [translateSubtitles] (and its inner helper [translateBatch]) and
      [cancelTranslation].

    JavaScript strings are modelled as lists of UTF-16 code units ([N]);
    [length] is [String.prototype.length] and [trim] strips the ECMAScript
    WhiteSpace and LineTerminator code units. A JavaScript [Map] is an
    association list kept in insertion order. *)

From Stdlib Require Import Ascii String.
From Stdlib Require Import List Bool Arith Lia NArith ZArith QArith Permutation Sorted.
Import ListNotations.
Open Scope nat_scope.

(* ------------------------------------------------------------------ *)
(** ** JavaScript strings *)

Definition jsstr := list N.

(** A Rocq ASCII literal as a JavaScript string. *)
Definition lit (s : string) : jsstr :=
  map (fun c => N.of_nat (nat_of_ascii c)) (list_ascii_of_string s).

Fixpoint str_eqb (a b : jsstr) : bool :=
  match a, b with
  | [], [] => true
  | x :: a', y :: b' => N.eqb x y && str_eqb a' b'
  | _, _ => false
  end.

(** ECMAScript WhiteSpace and LineTerminator code units (ES2023 12.2, 12.3):
    TAB, LF, VT, FF, CR, SP, NBSP, the Zs category and LS, PS, ZWNBSP. *)
Definition isWhite (c : N) : bool :=
  (9 <=? c)%N && (c <=? 13)%N || N.eqb c 32 || N.eqb c 160 || N.eqb c 5760
  || (8192 <=? c)%N && (c <=? 8202)%N || N.eqb c 8232 || N.eqb c 8233
  || N.eqb c 8239 || N.eqb c 8287 || N.eqb c 12288 || N.eqb c 65279.

Fixpoint trimStart (s : jsstr) : jsstr :=
  match s with
  | [] => []
  | c :: s' => if isWhite c then trimStart s' else s
  end.

(** [String.prototype.trim]. *)
Definition trim (s : jsstr) : jsstr := rev (trimStart (rev (trimStart s))).

(** JavaScript truthiness of a string: only the empty string is falsy. *)
Definition truthy (s : jsstr) : bool :=
  match s with [] => false | _ => true end.

(** Truthiness of [string | undefined]. *)
Definition truthy_opt (v : option jsstr) : bool :=
  match v with Some s => truthy s | None => false end.

(* ------------------------------------------------------------------ *)
(** ** JavaScript [Map] as an association list in insertion order *)

Section AssocMap.
Context {K V : Type} (eqb : K -> K -> bool).

Fixpoint map_get (m : list (K * V)) (k : K) : option V :=
  match m with
  | [] => None
  | (k', v) :: m' => if eqb k k' then Some v else map_get m' k
  end.

Definition map_has (m : list (K * V)) (k : K) : bool :=
  match map_get m k with Some _ => true | None => false end.

(** [Map.prototype.set]: overwrite in place, or append a new entry. *)
Fixpoint map_set (m : list (K * V)) (k : K) (v : V) : list (K * V) :=
  match m with
  | [] => [(k, v)]
  | (k', v') :: m' =>
      if eqb k k' then (k', v) :: m' else (k', v') :: map_set m' k v
  end.

(** [Map.prototype.delete]. *)
Definition map_delete (m : list (K * V)) (k : K) : list (K * V) :=
  filter (fun kv => negb (eqb k (fst kv))) m.
End AssocMap.

Definition sget {V} := @map_get jsstr V str_eqb.
Definition shas {V} := @map_has jsstr V str_eqb.
Definition sset {V} := @map_set jsstr V str_eqb.
Definition sdel {V} := @map_delete jsstr V str_eqb.

(* ------------------------------------------------------------------ *)
(** ** [LRUCache] *)

Record LRUCache := mkLRU {
  cache : list (jsstr * jsstr);
  maxSize : nat;
  keys : list jsstr
}.

Definition newLRU (maxSize : nat) : LRUCache := mkLRU [] maxSize [].

(** The constructor's default: [new LRUCache()] has [maxSize = 1000]. *)
Definition defaultLRU : LRUCache := newLRU 1000.

Definition underscore : jsstr := lit "_".

(** [getKey]: the template literal [`${sourceLang}_${targetLang}_${text}`]. *)
Definition getKey (sourceLang targetLang text : jsstr) : jsstr :=
  sourceLang ++ underscore ++ targetLang ++ underscore ++ text.

(** [keys.filter(k => k !== key)] *)
Definition remove_key (key : jsstr) (ks : list jsstr) : list jsstr :=
  filter (fun k => negb (str_eqb k key)) ks.

(** [LRUCache.get]: returns the new cache and the looked-up value. *)
Definition lru_get (c : LRUCache) (sourceLang targetLang text : jsstr)
  : LRUCache * option jsstr :=
  let key := getKey sourceLang targetLang text in
  let value := sget (cache c) key in
  if truthy_opt value
  then (mkLRU (cache c) (maxSize c) (key :: remove_key key (keys c)), value)
  else (c, value).

(** [Array.prototype.pop]: the array without its last element, and that
    element ([undefined] on an empty array). *)
Definition pop {A} (l : list A) : list A * option A :=
  match rev l with
  | [] => ([], None)
  | x :: r => (rev r, Some x)
  end.

(** [LRUCache.set]. *)
Definition lru_set (c : LRUCache) (sourceLang targetLang text translatedText : jsstr)
  : LRUCache :=
  let key := getKey sourceLang targetLang text in
  let '(cache1, keys1) :=
    if shas (cache c) key then (cache c, remove_key key (keys c))
    else if maxSize c <=? length (cache c) then
      match pop (keys c) with
      | (ks, Some oldestKey) =>
          if truthy oldestKey then (sdel (cache c) oldestKey, ks) else (cache c, ks)
      | (ks, None) => (cache c, ks)
      end
    else (cache c, keys c) in
  mkLRU (sset cache1 key translatedText) (maxSize c) (key :: keys1).

(** [LRUCache.clear]. *)
Definition lru_clear (c : LRUCache) : LRUCache := mkLRU [] (maxSize c) [].

(** The [size] getter: [this.cache.size]. *)
Definition lru_size (c : LRUCache) : nat := length (cache c).

(** A sequence of operations on one [LRUCache]. *)
Inductive cache_op :=
| OGet (sourceLang targetLang text : jsstr)
| OSet (sourceLang targetLang text translatedText : jsstr)
| OClear.

(** The key an operation touches, if any. *)
Definition op_key (op : cache_op) : option jsstr :=
  match op with
  | OGet sl tl tx => Some (getKey sl tl tx)
  | OSet sl tl tx _ => Some (getKey sl tl tx)
  | OClear => None
  end.

(** Runs one operation. Besides the cache, the run records the sequence of
    accesses that promote a key: every [set], and every [get] whose value is
    truthy (the [if (value)] branch of [get]). *)
Definition step_op (st : LRUCache * list jsstr) (op : cache_op) : LRUCache * list jsstr :=
  let '(c, acc) := st in
  match op with
  | OGet sl tl tx =>
      let '(c', v) := lru_get c sl tl tx in
      (c', if truthy_opt v then acc ++ [getKey sl tl tx] else acc)
  | OSet sl tl tx v => (lru_set c sl tl tx v, acc ++ [getKey sl tl tx])
  | OClear => (lru_clear c, acc)
  end.

Definition run_ops (c : LRUCache) (ops : list cache_op) : LRUCache * list jsstr :=
  fold_left step_op ops (c, []).

(** Recency of a key in a sequence of accesses: one plus the position of
    its last occurrence, [0] when it never occurs. *)
Definition last_occ (acc : list jsstr) (k : jsstr) : nat :=
  snd (fold_left (fun st x => let '(i, best) := st in
                   (S i, if str_eqb x k then S i else best)) acc (0, 0)).

(** The key each operation touches ([clear] touches none, written as the
    empty string, which is never a key of the cache). *)
Definition touch (op : cache_op) : jsstr :=
  match op_key op with Some k' => k' | None => [] end.

Definition touches (ops : list cache_op) : list jsstr := map touch ops.

(** Recency over every [get] and [set] of a key, whatever [get] returned. *)
Definition last_touch (ops : list cache_op) (k : jsstr) : nat :=
  last_occ (touches ops) k.

(** Every [set] of the sequence stores a non-empty (truthy) value, as
    [translate] does: it stores only non-blank results. *)
Definition set_ok (op : cache_op) : bool :=
  match op with OSet _ _ _ v => truthy v | _ => true end.

Definition sets_truthy (ops : list cache_op) : bool := forallb set_ok ops.

(** Every value the cache holds is truthy. *)
Definition vals_truthy (c : LRUCache) : Prop :=
  forall k v, sget (cache c) k = Some v -> truthy v = true.

(* ------------------------------------------------------------------ *)
(** ** Recency bookkeeping *)

Definition occ_step (k : jsstr) (st : nat * nat) (x : jsstr) : nat * nat :=
  let '(i, best) := st in (S i, if str_eqb x k then S i else best).

(** [a] was accessed more recently than [b]. *)
Definition fresher (acc : list jsstr) (a b : jsstr) : Prop :=
  last_occ acc b < last_occ acc a.

(* ------------------------------------------------------------------ *)
(** ** The [LRUCache] invariant *)

Record lru_inv (c : LRUCache) (acc : list jsstr) : Prop := {
  inv_keys_nodup : NoDup (keys c);
  inv_cache_nodup : NoDup (map fst (cache c));
  inv_dom : forall k, In k (keys c) <-> In k (map fst (cache c));
  inv_truthy : forall k, In k (keys c) -> truthy k = true;
  inv_bound : length (keys c) <= maxSize c;
  inv_order : StronglySorted (fresher acc) (keys c)
}.

(** The language codes the service accepts. *)
Definition ja : jsstr := lit "ja".
Definition zh : jsstr := lit "zh".

(* ------------------------------------------------------------------ *)
(** ** C3: the result cache *)

(** The text of the [i]-th cache entry in the concrete scenario below. *)
Definition tx (i : nat) : jsstr := [12354%N; N.of_nat i].

(** [set] of 1000 distinct keys, each with the translation ["t"], then a
    [get] of the first key. *)
Definition ops_c3 : list cache_op :=
  map (fun i => OSet ja zh (tx i) (lit "t")) (seq 0 1000) ++ [OGet ja zh (tx 0)].

(* ------------------------------------------------------------------ *)
(** ** [TranslationService] *)

Record TranslationOptions := mkOpts {
  sourceLanguage : jsstr;
  targetLanguage : jsstr;
  text : jsstr
}.

(** [sourceLanguage !== 'ja' || targetLanguage !== 'zh'] *)
Definition unsupported (sl tl : jsstr) : bool :=
  negb (str_eqb sl ja) || negb (str_eqb tl zh).

Definition is_newline (c : N) : bool := N.eqb c 10 || N.eqb c 13.

(** [text.replace(/[\r\n]+/g, ' ')]: [in_run] tells whether the previous code
    unit was already part of a replaced run. *)
Fixpoint replace_newlines (in_run : bool) (s : jsstr) : jsstr :=
  match s with
  | [] => []
  | c :: s' =>
      if is_newline c then
        if in_run then replace_newlines true s' else 32%N :: replace_newlines true s'
      else c :: replace_newlines false s'
  end.

Definition collapse_newlines (s : jsstr) : jsstr := replace_newlines false s.

(** What one HTTP exchange of [translateWithGoogleAPI] yields: a 2xx response
    whose JSON has the string [s] at [data[0][0][0]] (the empty string when
    that slot is missing or falsy), or any thrown error (non-2xx status,
    abort on timeout, network error, malformed JSON shape). *)
Inductive response :=
| RespText (s : jsstr)
| RespFail.

(** One call of [translateWithGoogleAPI]: [Some] translated text, or [None]
    when it throws. *)
Definition translateWithGoogleAPI (o : TranslationOptions) (r : response) : option jsstr :=
  if unsupported (sourceLanguage o) (targetLanguage o) then None else
  let processedText := collapse_newlines (trim (text o)) in
  if 5000 <? length processedText then None else
  match r with
  | RespFail => None
  | RespText s =>
      if negb (truthy s) then Some (text o)
      else if negb (truthy (trim s)) then Some (text o)
      else Some s
  end.

(** [maxAttempts] in [executeTranslationTask]. *)
Definition maxAttempts : nat := 3.

(** The retry loop [while (attempts <= maxAttempts)] of
    [executeTranslationTask], fed with the responses of successive attempts:
    the first successful attempt settles the task, [None] after
    [maxAttempts + 1] failures (or when the responses run out). The backoff
    delays only change timing. *)
Fixpoint attempts_loop (o : TranslationOptions) (fuel : nat) (rs : list response)
  : option jsstr :=
  match fuel, rs with
  | 0, _ | _, [] => None
  | S f, r :: rs' =>
      match translateWithGoogleAPI o r with
      | Some v => Some v
      | None => attempts_loop o f rs'
      end
  end.

Definition executeTranslationTask (o : TranslationOptions) (rs : list response)
  : option jsstr :=
  attempts_loop o (S maxAttempts) rs.

(** A JavaScript number: [NaN], a finite value, or an infinity. A finite
    double is a rational, so [Fin] ranges over [Q]. *)
Inductive number := NaN | Fin (q : Q) | PosInf | NegInf.

(** [Math.min] and [Math.max] of two numbers ([NaN] if either is). *)
Definition Math_min (a b : number) : number :=
  match a, b with
  | NaN, _ | _, NaN => NaN
  | NegInf, _ | _, NegInf => NegInf
  | PosInf, y => y
  | x, PosInf => x
  | Fin p, Fin q => if Qle_bool p q then Fin p else Fin q
  end.

Definition Math_max (a b : number) : number :=
  match a, b with
  | NaN, _ | _, NaN => NaN
  | PosInf, _ | _, PosInf => PosInf
  | NegInf, y => y
  | x, NegInf => x
  | Fin p, Fin q => if Qle_bool p q then Fin q else Fin p
  end.

(** [n < x] for a count [n]; a comparison with [NaN] is [false]. *)
Definition lt_num (n : nat) (x : number) : bool :=
  match x with
  | NaN | NegInf => false
  | PosInf => true
  | Fin q => negb (Qle_bool q (inject_Z (Z.of_nat n)))
  end.

(** A count as a JavaScript number. *)
Definition num_of_nat (n : nat) : number := Fin (inject_Z (Z.of_nat n)).

(** The service's fields. Promises are numbered; [translationQueue] holds
    the queued items (promise, options), [running] the tasks handed to
    [executeTranslationTask] and not yet settled, [settled] the outcome of
    every settled promise ([None]: rejected). *)
Record Svc := mkSvc {
  resultCache : LRUCache;
  promiseCache : list (jsstr * nat);
  translationQueue : list (nat * TranslationOptions);
  running : list (nat * TranslationOptions);
  activeTranslations : nat;
  maxConcurrent : number;
  isProcessing : bool;
  settled : list (nat * option jsstr);
  nextPromise : nat
}.

Definition nget {V} := @map_get nat V Nat.eqb.

Definition svc0 : Svc := mkSvc defaultLRU [] [] [] 0 (num_of_nat 40) false [] 0.

Definition set_resultCache (s : Svc) c : Svc :=
  mkSvc c (promiseCache s) (translationQueue s) (running s) (activeTranslations s)
        (maxConcurrent s) (isProcessing s) (settled s) (nextPromise s).

(** The [while] loop of [processQueueIterative]; [executeTranslationTask]
    runs synchronously up to its first [await], which here only records the
    task as running. *)
Fixpoint drain (fuel : nat) (s : Svc) : Svc :=
  match fuel with
  | 0 => s
  | S f =>
      match translationQueue s with
      | (p, o) :: q =>
          if lt_num (activeTranslations s) (maxConcurrent s) then
            drain f (mkSvc (resultCache s) (promiseCache s) q (running s ++ [(p, o)])
                           (S (activeTranslations s)) (maxConcurrent s) (isProcessing s)
                           (settled s) (nextPromise s))
          else s
      | [] => s
      end
  end.

Definition processQueueIterative (s : Svc) : Svc :=
  let s' := drain (length (translationQueue s)) s in
  mkSvc (resultCache s') (promiseCache s') (translationQueue s') (running s')
        (activeTranslations s') (maxConcurrent s')
        (negb (match translationQueue s' with [] => true | _ => false end)
         || (0 <? activeTranslations s'))
        (settled s') (nextPromise s').

Definition startProcessingQueue (s : Svc) : Svc :=
  if isProcessing s then s else
  processQueueIterative
    (mkSvc (resultCache s) (promiseCache s) (translationQueue s) (running s)
           (activeTranslations s) (maxConcurrent s) true (settled s) (nextPromise s)).

(** A caller of [translate]: returned (with the value, or [None] when the
    returned promise rejected), suspended at [await translationPromise] as
    the creator of promise [p], or attached to the promise [p] of another
    call through [return this.promiseCache.get(cacheKey)!]. *)
Inductive Caller :=
| CReturned (r : option jsstr)
| COwner (p : nat) (o : TranslationOptions)
| CAttached (p : nat).

Record World := mkWorld {
  svc : Svc;
  callers : list (nat * Caller)
}.

Definition world0 : World := mkWorld svc0 [].

(** [`${sourceLanguage}_${targetLanguage}_${text}`] of an options object. *)
Definition optKey (o : TranslationOptions) : jsstr :=
  getKey (sourceLanguage o) (targetLanguage o) (text o).

(** The synchronous part of [translate] (up to its first [await]). *)
Definition translate_start (s : Svc) (o : TranslationOptions) : Svc * Caller :=
  let sl := sourceLanguage o in
  let tl := targetLanguage o in
  let tx := text o in
  if unsupported sl tl then (s, CReturned None)
  else if negb (truthy (trim tx)) then (s, CReturned (Some tx))
  else
    let '(rc, cachedResult) := lru_get (resultCache s) sl tl tx in
    let s1 := set_resultCache s rc in
    if truthy_opt cachedResult then (s1, CReturned cachedResult)
    else
      let cacheKey := getKey sl tl tx in
      match sget (promiseCache s1) cacheKey with
      | Some p => (s1, CAttached p)
      | None =>
          let p := nextPromise s1 in
          let s2 := mkSvc (resultCache s1) (sset (promiseCache s1) cacheKey p)
                          (translationQueue s1 ++ [(p, o)]) (running s1)
                          (activeTranslations s1) (maxConcurrent s1) (isProcessing s1)
                          (settled s1) (S p) in
          (startProcessingQueue s2, COwner p o)
      end.

(** The rest of [translate] after [await translationPromise] settles: the
    [try] stores a value in the result cache, the [finally] removes the
    promise-cache entry. *)
Definition translate_finish (s : Svc) (o : TranslationOptions) (out : option jsstr)
  : Svc :=
  let cacheKey := getKey (sourceLanguage o) (targetLanguage o) (text o) in
  let rc := match out with
            | Some v => lru_set (resultCache s) (sourceLanguage o) (targetLanguage o) (text o) v
            | None => resultCache s
            end in
  mkSvc rc (sdel (promiseCache s) cacheKey) (translationQueue s) (running s)
        (activeTranslations s) (maxConcurrent s) (isProcessing s) (settled s)
        (nextPromise s).

(** The end of [executeTranslationTask] for the task of promise [p]:
    [task.resolve]/[task.reject], then the [finally] block. *)
Definition settle_task (s : Svc) (p : nat) (out : option jsstr) : Svc :=
  processQueueIterative
    (mkSvc (resultCache s) (promiseCache s) (translationQueue s)
           (filter (fun po => negb (Nat.eqb (fst po) p)) (running s))
           (activeTranslations s - 1) (maxConcurrent s) (isProcessing s)
           ((p, out) :: settled s) (nextPromise s)).

(** [setMaxConcurrent(concurrent)], for any number [concurrent]. *)
Definition setMaxConcurrent (s : Svc) (concurrent : number) : Svc :=
  startProcessingQueue
    (mkSvc (resultCache s) (promiseCache s) (translationQueue s) (running s)
           (activeTranslations s)
           (Math_max (num_of_nat 1) (Math_min (num_of_nat 50) concurrent)) (isProcessing s)
           (settled s) (nextPromise s)).

(** [clearCache]. *)
Definition clearCache (s : Svc) : Svc := set_resultCache s (lru_clear (resultCache s)).

(** What can happen next: a new call of [translate] by caller [t]; the
    running task of promise [p] finishing with the responses [rs] of its
    attempts; a suspended caller resuming; [clearCache]; [setMaxConcurrent]. *)
Inductive event :=
| ECall (t : nat) (o : TranslationOptions)
| ESettle (p : nat) (rs : list response)
| EResume (t : nat)
| EClear
| ESetMax (concurrent : number).

Definition pc_refers_to (pc : list (jsstr * nat)) (p : nat) : bool :=
  existsb (fun kv => Nat.eqb (snd kv) p) pc.

(** One step; [None] when the event cannot happen in this world. An
    attached caller resumes only after the owner of its promise: the owner's
    [await] reaction was registered first, and the attached caller's result
    is adopted from the same promise one reaction later. *)
Definition step (w : World) (e : event) : option World :=
  let s := svc w in
  match e with
  | ECall t o =>
      match nget (callers w) t with
      | Some _ => None
      | None =>
          let '(s', c) := translate_start s o in
          Some (mkWorld s' ((t, c) :: callers w))
      end
  | ESettle p rs =>
      match nget (running s) p with
      | Some o => Some (mkWorld (settle_task s p (executeTranslationTask o rs)) (callers w))
      | None => None
      end
  | EResume t =>
      match nget (callers w) t with
      | Some (COwner p o) =>
          match nget (settled s) p with
          | Some out =>
              Some (mkWorld (translate_finish s o out) (map_set Nat.eqb (callers w) t (CReturned out)))
          | None => None
          end
      | Some (CAttached p) =>
          match nget (settled s) p with
          | Some out =>
              if pc_refers_to (promiseCache s) p then None
              else Some (mkWorld s (map_set Nat.eqb (callers w) t (CReturned out)))
          | None => None
          end
      | _ => None
      end
  | EClear => Some (mkWorld (clearCache s) (callers w))
  | ESetMax n => Some (mkWorld (setMaxConcurrent s n) (callers w))
  end.

Fixpoint run (w : World) (es : list event) : option World :=
  match es with
  | [] => Some w
  | e :: es' => match step w e with Some w' => run w' es' | None => None end
  end.

Inductive reachable : World -> Prop :=
| reach0 : reachable world0
| reach_step w e w' : reachable w -> step w e = Some w' -> reachable w'.

(** [drain], and hence [processQueueIterative] and [startProcessingQueue],
    only move items from the queue to the running tasks. *)
Definition same_but_items (s s' : Svc) : Prop :=
  resultCache s' = resultCache s /\ promiseCache s' = promiseCache s /\
  settled s' = settled s /\ nextPromise s' = nextPromise s /\
  maxConcurrent s' = maxConcurrent s /\
  Permutation (translationQueue s ++ running s) (translationQueue s' ++ running s').

(* ------------------------------------------------------------------ *)
(** ** The service invariant *)

(** Every request waiting in the queue or running. *)
Definition items (s : Svc) : list (nat * TranslationOptions) :=
  translationQueue s ++ running s.

(** A request that passed the checks at the top of [translate]. *)
Definition admitted (o : TranslationOptions) : Prop :=
  unsupported (sourceLanguage o) (targetLanguage o) = false /\
  truthy (trim (text o)) = true.

Record svc_inv (s : Svc) (cs : list (nat * Caller)) : Prop := {
  si_pc_nodup : NoDup (map fst (promiseCache s));
  si_items_nodup : NoDup (map fst (items s));
  si_item : forall p o, In (p, o) (items s) ->
    sget (promiseCache s) (optKey o) = Some p /\ nget (settled s) p = None /\
    p < nextPromise s /\ admitted o;
  si_pc_owner : forall k p, sget (promiseCache s) k = Some p ->
    exists t o, nget cs t = Some (COwner p o) /\ optKey o = k;
  si_owner : forall t p o, nget cs t = Some (COwner p o) ->
    sget (promiseCache s) (optKey o) = Some p /\ p < nextPromise s /\ admitted o /\
    (nget (settled s) p = None -> In (p, o) (items s));
  si_owner_unique : forall t1 t2 p o1 o2,
    nget cs t1 = Some (COwner p o1) -> nget cs t2 = Some (COwner p o2) -> t1 = t2;
  si_settled_lt : forall p out, nget (settled s) p = Some out -> p < nextPromise s;
  si_settled_truthy : forall p v, nget (settled s) p = Some (Some v) -> truthy v = true;
  si_pc_rc : forall k p, sget (promiseCache s) k = Some p ->
    truthy_opt (sget (cache (resultCache s)) k) = false
}.

(** A first caller of [translate] on the text ["a"]. *)
Definition w_one_pending : World :=
  match run world0 [ECall 0 (mkOpts ja zh (lit "a"))] with
  | Some w => w
  | None => world0
  end.

(** What the second of two calls of [translate] with the options [o] does
    when it comes right after the first one returned [v]: it returns [v] at
    once, queues nothing and registers no pending promise; when the text is
    not blank, [v] is the result cache's entry for the key, and the cache
    keeps its entries. *)
Definition served_again (w1 : World) (t2 : nat) (o : TranslationOptions) (v : jsstr)
  : Prop :=
  exists s2,
    step w1 (ECall t2 o) = Some (mkWorld s2 ((t2, CReturned (Some v)) :: callers w1)) /\
    promiseCache s2 = promiseCache (svc w1) /\
    translationQueue s2 = translationQueue (svc w1) /\
    running s2 = running (svc w1) /\ settled s2 = settled (svc w1) /\
    nextPromise s2 = nextPromise (svc w1) /\
    (truthy (trim (text o)) = true ->
       sget (cache (resultCache (svc w1))) (optKey o) = Some v /\
       cache (resultCache s2) = cache (resultCache (svc w1))).

(** A first call on ["a"] whose task exhausts its attempts, then a second
    call with the same options; and two calls on the blank text [" "]. *)
Definition opts_a : TranslationOptions := mkOpts ja zh (lit "a").
Definition opts_blank : TranslationOptions := mkOpts ja zh (lit " ").
Definition all_fail : list response := [RespFail; RespFail; RespFail; RespFail].

(** The first caller on ["a"] after its task succeeded with ["x"]. *)
Definition w_a_pending_done : World :=
  match run world0 [ECall 0 opts_a; ESettle 0 [RespText (lit "x")]] with
  | Some w => w
  | None => world0
  end.

Definition w_a_resumed : World :=
  match step w_a_pending_done (EResume 0) with Some w => w | None => world0 end.

(** [setMaxConcurrent(NaN)] on a fresh service, then a call on ["a"]; and a
    service limited to one task, with ["a"] running and ["b"] queued. *)
Definition opts_b : TranslationOptions := mkOpts ja zh (lit "b").

Definition w_nan_queued : World :=
  match run world0 [ESetMax NaN; ECall 0 opts_a] with Some w => w | None => world0 end.


(** A service whose result cache maps ["a"] to the empty string. *)
Definition svc_empty_a : Svc := set_resultCache svc0 (lru_set defaultLRU ja zh (lit "a") []).

(* ------------------------------------------------------------------ *)
(** ** [TranslationService.translateBatch] *)

(** An element of [tasks]: [{ index, text, length }]. *)
Record BatchTask := mkTask { tindex : nat; ttext : jsstr; tlength : nat }.

(** The first loop: look every text up in the result cache; a truthy cached
    value fills its slot of [results] ([new Array(texts.length)], whose
    holes are [None]), any other text becomes a task. *)
Fixpoint collect_tasks (c : LRUCache) (sl tl : jsstr) (i : nat) (texts : list jsstr)
  : LRUCache * list (option jsstr) * list BatchTask :=
  match texts with
  | [] => (c, [], [])
  | text :: rest =>
      let '(c1, cachedResult) := lru_get c sl tl text in
      let '(c2, results, tasks) := collect_tasks c1 sl tl (S i) rest in
      if truthy_opt cachedResult then (c2, cachedResult :: results, tasks)
      else (c2, None :: results, mkTask i text (length text) :: tasks)
  end.

(** [tasks.reduce((sum, task) => sum + task.length, 0)] *)
Definition sum_lengths (tasks : list BatchTask) : nat :=
  fold_left (fun sum task => sum + tlength task) tasks 0.

(** IEEE 754 doubles, for the positive values [dynamicBatchSize] computes
    with: a pair [(M, e)] stands for [M * 2^e]. [rne n d] rounds [n / d] to
    the nearest integer, ties to even; [scale n d e] is the fraction
    [(n / d) / 2^e] as a pair of integers. *)
Definition rne (n d : Z) : Z :=
  let '(q, r) := Z.div_eucl n d in
  match Z.compare (2 * r) d with
  | Lt => q
  | Gt => q + 1
  | Eq => if Z.even q then q else q + 1
  end%Z.

Definition scale (n d e : Z) : Z * Z :=
  (if Z.leb 0 e then (n, d * 2 ^ e) else (n * 2 ^ (- e), d))%Z.

(** The double nearest to [n / d] (for positive [n], [d]), with a 53-bit
    significand: [e] is chosen so that [2^52 <= (n / d) / 2^e < 2^53]. *)
Definition round_pos (n d : Z) : Z * Z :=
  (let e0 := Z.log2 n - Z.log2 d - 52 in
  let e := if Z.ltb (let '(a, b) := scale n d e0 in a / b) (2 ^ 52) then e0 - 1 else e0 in
  let '(a, b) := scale n d e in (rne a b, e))%Z.

(** [Math.floor] of a double. *)
Definition dbl_floor (x : Z * Z) : Z :=
  (let '(M, e) := x in if Z.leb 0 e then M * 2 ^ e else M / 2 ^ (- e))%Z.

(** [dynamicBatchSize], for [nTexts = texts.length]. The term
    [Math.floor(Math.sqrt(texts.length) * 5)] is [Nat.sqrt (25 * nTexts)]
    (the two agree for the counts below 100 where it is under the cap of
    50, and both are at least 50 from 100 on). The term
    [Math.floor(10000 / Math.max(1, totalChars / tasks.length || 1))] is
    10000 when there is no task ([0/0] is [NaN], and [NaN || 1] is 1) or
    when the average length is below 1 (a zero average is falsy, and
    [Math.max] raises the others to 1); otherwise it is computed in doubles,
    [floor(fl(10000 / fl(totalChars / m)))] for [m] tasks, each division
    rounded to the nearest double. The sum [totalChars] is exact in doubles
    up to [2^53]; [byLength] is this last term. *)
Definition byLength (tasks : list BatchTask) : nat :=
  let m := length tasks in
  let totalChars := sum_lengths tasks in
  if (m =? 0) || (totalChars <? m) then 10000
  else
    let '(M, e) := round_pos (Z.of_nat totalChars) (Z.of_nat m) in
    Z.to_nat (dbl_floor (let '(a, b) := scale 10000%Z M e in round_pos a b)).

Definition dynamicBatchSize (nTexts : nat) (tasks : list BatchTask) : nat :=
  Nat.max 10 (Nat.min 50 (Nat.min (Nat.sqrt (25 * nTexts)) (byLength tasks))).

(** [results[index] = text]; the indices written are those of the input, so
    always in range. *)
Fixpoint set_slot (l : list (option jsstr)) (i : nat) (v : jsstr) : list (option jsstr) :=
  match l, i with
  | [], _ => []
  | _ :: l', 0 => Some v :: l'
  | x :: l', S i' => x :: set_slot l' i' v
  end.

(** [await Promise.all(actualBatch.map(task => this.translate(...)))], where
    [tr text] is what [translate] resolves to ([None]: it rejects, and so
    does [Promise.all]). *)
Fixpoint await_all (tr : jsstr -> option jsstr) (batch : list BatchTask)
  : option (list (nat * jsstr)) :=
  match batch with
  | [] => Some []
  | task :: rest =>
      match tr (ttext task), await_all tr rest with
      | Some v, Some rs => Some ((tindex task, v) :: rs)
      | _, _ => None
      end
  end.

(** The second loop, [for (let i = 0; i < tasks.length; i += dynamicBatchSize)];
    [fuel] bounds its iterations ([S (length tasks)] is enough since the step
    is at least 10). *)
Fixpoint batch_loop (tr : jsstr -> option jsstr) (dyn : nat) (tasks : list BatchTask)
    (fuel i : nat) (results : list (option jsstr)) : option (list (option jsstr)) :=
  match fuel with
  | 0 => Some results
  | S fuel' =>
      if i <? length tasks then
        let batch := firstn dyn (skipn i tasks) in
        let batchCharCount := sum_lengths batch in
        let effectiveBatchSize :=
          if 10000 <? batchCharCount then Nat.max 1 (dyn * 10000 / batchCharCount)
          else dyn in
        let actualBatch := firstn effectiveBatchSize batch in
        match await_all tr actualBatch with
        | None => None
        | Some batchResults =>
            batch_loop tr dyn tasks fuel' (i + dyn)
              (fold_left (fun r iv => set_slot r (fst iv) (snd iv)) batchResults results)
        end
      else Some results
  end.

(** [translateBatch(texts, sourceLanguage, targetLanguage)] on the result
    cache [rc]: [None] when it throws or rejects, otherwise the returned
    array, [None] marking a slot never written ([undefined]). *)
Definition translateBatch (rc : LRUCache) (sl tl : jsstr) (texts : list jsstr)
    (tr : jsstr -> option jsstr) : option (list (option jsstr)) :=
  if unsupported sl tl then None
  else
    let '(_, results, tasks) := collect_tasks rc sl tl 0 texts in
    let dyn := dynamicBatchSize (length texts) tasks in
    batch_loop tr dyn tasks (S (length tasks)) 0 results.

(** Ten distinct texts of 1001 code units each. *)
Definition long_text (i : nat) : jsstr := N.of_nat (48 + i) :: repeat 12354%N 1000.
Definition long_texts : list jsstr := map long_text (seq 0 10).

(* ------------------------------------------------------------------ *)
(** ** The [useTranslation] hook *)

(** The [SubtitleLine] objects are shared between the caller's array and
    [translatedSubtitles = [...subtitles]] (a shallow copy), so the model
    keeps their [text] fields in a heap indexed by object address, and a
    session holds the addresses of its array. *)
Definition heap_t := nat -> jsstr.

Definition heap_write (m : heap_t) (a : nat) (v : jsstr) : heap_t :=
  fun a' => if Nat.eqb a' a then v else m a'.

(** One running call of [translateSubtitles]: its array (addresses), its
    [targetLanguage], the loop index [i], the calls of the inner
    [translateBatch] of the current wave still awaiting [translate] (index
    and the text passed in), and whether the call has returned. *)
Record Session := mkSession {
  subs : list nat;
  targetLang : jsstr;
  wave : nat;
  pending : list (nat * jsstr);
  finished : bool
}.

(** The hook's state: the heap, [isTranslating], [translationProgress],
    [isCancelledRef.current], [progressRef.current], [translationCacheRef],
    the calls of [onTranslated] (newest first, each with the session and the
    [translationProgress] at that moment) and the running sessions.
    [activePromisesRef] is only added to, deleted from and cleared, never
    read, and is left out. *)
Record Hook := mkHook {
  heap : heap_t;
  isTranslating : bool;
  progress : nat * nat;
  isCancelled : bool;
  progressRef : nat * nat;
  translationCache : list (jsstr * jsstr);
  callbacks : list (nat * (nat * nat));
  sessions : list (nat * Session)
}.

Definition hook0 (m : heap_t) : Hook := mkHook m false (0, 0) false (0, 0) [] [] [].

Definition set_text (h : Hook) (a : nat) (v : jsstr) : Hook :=
  mkHook (heap_write (heap h) a v) (isTranslating h) (progress h) (isCancelled h)
         (progressRef h) (translationCache h) (callbacks h) (sessions h).

(** [const newCompleted = ++progressRef.current.completed;
     setTranslationProgress({ completed: newCompleted, total: progressRef.current.total })] *)
Definition bump (h : Hook) : Hook :=
  let '(c, t) := progressRef h in
  mkHook (heap h) (isTranslating h) (S c, t) (isCancelled h) (S c, t)
         (translationCache h) (callbacks h) (sessions h).

Definition cache_put (h : Hook) (k v : jsstr) : Hook :=
  mkHook (heap h) (isTranslating h) (progress h) (isCancelled h) (progressRef h)
         (sset (translationCache h) k v) (callbacks h) (sessions h).

Definition put_session (h : Hook) (sid : nat) (s : Session) : Hook :=
  mkHook (heap h) (isTranslating h) (progress h) (isCancelled h) (progressRef h)
         (translationCache h) (callbacks h) (map_set Nat.eqb (sessions h) sid s).

(** [`${text}_${targetLanguage}`] *)
Definition hookKey (txt tl : jsstr) : jsstr := txt ++ underscore ++ tl.

(** The address of [translatedSubtitles[index]] (indices are below the
    array's length; the default is never used). *)
Definition addr_of (s : Session) (index : nat) : nat := nth index (subs s) 0.

(** The inner [translateBatch(index, text)] up to its first [await]: it
    returns early when cancelled, completes at once on a hit of the hook's
    cache, and otherwise calls [translationService.translate] and waits. *)
Definition translateBatch_start (h : Hook) (s : Session) (index : nat) (txt : jsstr)
  : Hook * option (nat * jsstr) :=
  if isCancelled h then (h, None)
  else match sget (translationCache h) (hookKey txt (targetLang s)) with
       | Some v => (bump (set_text h (addr_of s index) v), None)
       | None => (h, Some (index, txt))
       end.

(** [batch.map((subtitle, batchIndex) => translateBatch(i + batchIndex, subtitle.text))] *)
Fixpoint dispatch (h : Hook) (s : Session) (idxs : list nat)
  : Hook * list (nat * jsstr) :=
  match idxs with
  | [] => (h, [])
  | index :: rest =>
      let '(h1, p) := translateBatch_start h s index (heap h (addr_of s index)) in
      let '(h2, ps) := dispatch h1 s rest in
      (h2, match p with Some x => x :: ps | None => ps end)
  end.

(** One turn of the [for] loop at [i = wave s], or what follows the loop:
    [setIsTranslating(false)] and [onTranslated] unless cancelled. *)
Definition loop_step (h : Hook) (sid : nat) (s : Session) : Hook :=
  let n := length (subs s) in
  if (wave s <? n) && negb (isCancelled h) then
    let '(h1, ps) := dispatch h s (seq (wave s) (Nat.min 5 (n - wave s))) in
    put_session h1 sid (mkSession (subs s) (targetLang s) (wave s) ps false)
  else
    let h1 := if isCancelled h then h
              else mkHook (heap h) false (progress h) (isCancelled h) (progressRef h)
                          (translationCache h) ((sid, progress h) :: callbacks h)
                          (sessions h) in
    put_session h1 sid (mkSession (subs s) (targetLang s) (wave s) [] true).

(** [cancelTranslation] *)
Definition cancelTranslation (h : Hook) : Hook :=
  mkHook (heap h) false (0, 0) true (0, 0) (translationCache h) (callbacks h) (sessions h).

Fixpoint find_pending (ps : list (nat * jsstr)) (index : nat) : option jsstr :=
  match ps with
  | [] => None
  | (j, t) :: ps' => if Nat.eqb j index then Some t else find_pending ps' index
  end.

Fixpoint remove_pending (ps : list (nat * jsstr)) (index : nat) : list (nat * jsstr) :=
  match ps with
  | [] => []
  | (j, t) :: ps' => if Nat.eqb j index then ps' else (j, t) :: remove_pending ps' index
  end.

(** A call [translateSubtitles(subs, tl)] by session [sid]; the [translate]
    awaited by item [index] of session [sid] settling ([None]: it rejects);
    the [Promise.all] of a session's wave resolving; [cancelTranslation]. *)
Inductive hook_event :=
| HStart (sid : nat) (addrs : list nat) (tl : jsstr)
| HResolve (sid index : nat) (out : option jsstr)
| HWaveDone (sid : nat)
| HCancel.

Definition hook_step (h : Hook) (e : hook_event) : option Hook :=
  match e with
  | HStart sid addrs tl =>
      match nget (sessions h) sid with
      | Some _ => None
      | None =>
          match addrs with
          | [] => Some h
          | _ =>
              let n := length addrs in
              let h1 := mkHook (heap h) true (0, n) false (0, n) (translationCache h)
                               (callbacks h) (sessions h) in
              Some (loop_step h1 sid (mkSession addrs tl 0 [] false))
          end
      end
  | HResolve sid index out =>
      match nget (sessions h) sid with
      | Some s =>
          if finished s then None
          else match find_pending (pending s) index with
               | None => None
               | Some txt =>
                   let h1 := put_session h sid
                               (mkSession (subs s) (targetLang s) (wave s)
                                          (remove_pending (pending s) index) false) in
                   match out with
                   | Some v =>
                       if isCancelled h1 then Some h1
                       else Some (bump (cache_put (set_text h1 (addr_of s index) v)
                                                  (hookKey txt (targetLang s)) v))
                   | None => Some (set_text h1 (addr_of s index) txt)
                   end
               end
      | None => None
      end
  | HWaveDone sid =>
      match nget (sessions h) sid with
      | Some s =>
          match finished s, pending s with
          | false, [] =>
              Some (loop_step h sid (mkSession (subs s) (targetLang s) (wave s + 5) [] false))
          | _, _ => None
          end
      | None => None
      end
  | HCancel => Some (cancelTranslation h)
  end.

Fixpoint hook_run (h : Hook) (es : list hook_event) : option Hook :=
  match es with
  | [] => Some h
  | e :: es' => match hook_step h e with Some h' => hook_run h' es' | None => None end
  end.

(** What a cancelled hook keeps, relative to the state [h] just before
    [cancelTranslation]: still cancelled, progress [{0, 0}], not
    translating, no new [onTranslated] call, the hook's cache unchanged,
    every session one of those of [h] with fewer awaiting items, and every
    subtitle text either unchanged or rewritten with the text an awaiting
    item of [h] was dispatched with. *)
Definition cancel_frame (h h1 : Hook) : Prop :=
  isCancelled h1 = true /\ progress h1 = (0, 0) /\ progressRef h1 = (0, 0) /\
  isTranslating h1 = false /\
  callbacks h1 = callbacks h /\ translationCache h1 = translationCache h /\
  (forall sid s1, nget (sessions h1) sid = Some s1 ->
     exists s, nget (sessions h) sid = Some s /\ subs s1 = subs s /\
               incl (pending s1) (pending s)) /\
  (forall a, heap h1 a = heap h a \/
     exists sid s index txt, nget (sessions h) sid = Some s /\
       In (index, txt) (pending s) /\ addr_of s index = a /\ heap h1 a = txt).

Definition not_start (e : hook_event) : bool :=
  match e with HStart _ _ _ => false | _ => true end.

Definition heap_a : heap_t := fun _ => lit "a".

Definition hook_c4 : Hook :=
  match hook_step (hook0 heap_a) (HStart 1 [0] zh) with Some h => h | None => hook0 heap_a end.

Definition hook_c4_after : Hook :=
  match hook_run hook_c4 [HCancel; HResolve 1 0 (Some (lit "y")); HWaveDone 1] with
  | Some h => h
  | None => hook_c4
  end.

(** Two subtitles with the texts ["a"] and ["b"]; session 1 started on both,
    with both items awaiting [translate]. *)
Definition heap_ab : heap_t := fun a => if Nat.eqb a 0 then lit "a" else lit "b".

Definition hook_c5 : Hook :=
  match hook_step (hook0 heap_ab) (HStart 1 [0; 1] zh) with
  | Some h => h
  | None => hook0 heap_ab
  end.

Definition sess_c5 : Session := mkSession [0; 1] zh 0 [(0, lit "a"); (1, lit "b")] false.

(** Events of session [sid] alone: its items settling and its waves ending. *)
Definition session_event (sid : nat) (e : hook_event) : bool :=
  match e with
  | HResolve sid' _ _ | HWaveDone sid' => Nat.eqb sid' sid
  | _ => false
  end.

Definition is_failure (e : hook_event) : bool :=
  match e with HResolve _ _ None => true | _ => false end.

Definition count_failed (es : list hook_event) : nat := length (filter is_failure es).

(** The bookkeeping of session [sid] on [n] subtitles after [k] failures:
    while it runs, [completed + k + awaiting items] is the number of items
    dispatched so far; once finished, its [onTranslated] call was made with
    [completed + k = n]. *)
Definition session_inv (h0 : Hook) (n sid k : nat) (h : Hook) : Prop :=
  exists s, nget (sessions h) sid = Some s /\ length (subs s) = n /\
  ((finished s = false /\ isCancelled h = false /\ callbacks h = callbacks h0 /\
    wave s < n /\
    exists c, progress h = (c, n) /\ progressRef h = (c, n) /\
              c + k + length (pending s) = Nat.min (wave s + 5) n) \/
   (finished s = true /\
    exists c, callbacks h = (sid, (c, n)) :: callbacks h0 /\ c + k = n)).

(** Session 1 on two subtitles: the first item fails, the second succeeds. *)
Definition c9_events : list hook_event :=
  [HResolve 1 0 None; HResolve 1 1 (Some (lit "y")); HWaveDone 1].

Definition hook_c9 : Hook :=
  match hook_run (hook0 heap_a) (HStart 1 [0; 1] zh :: c9_events) with
  | Some h => h
  | None => hook0 heap_a
  end.

(* ------------------------------------------------------------------ *)
(** ** [getCacheStats], [getQueueStatus] and the queue's bookkeeping *)

(** [getCacheStats()]: [{ size: this.resultCache.size, maxSize: 1000 }]. *)
Record CacheStats := mkCacheStats { stats_size : nat; stats_maxSize : nat }.

Definition getCacheStats (s : Svc) : CacheStats :=
  mkCacheStats (lru_size (resultCache s)) 1000.

(** [getQueueStatus()]: [{ queued, active, maxConcurrent, isProcessing }]. *)
Record QueueStatus := mkQueueStatus {
  queued : nat;
  active : nat;
  status_maxConcurrent : number;
  status_isProcessing : bool
}.

Definition getQueueStatus (s : Svc) : QueueStatus :=
  mkQueueStatus (length (translationQueue s)) (activeTranslations s)
                (maxConcurrent s) (isProcessing s).

(** The values [Math.max(1, Math.min(50, x))] takes: [NaN], or a number in
    [1, 50]. *)
Definition limit_ok (x : number) : Prop :=
  x = NaN \/ exists q, x = Fin q /\ (1 <= q /\ q <= 50)%Q.

(** The counters and flags of the service agree with its queue and its
    running tasks, and the result cache keeps its [LRUCache] invariant. *)
Record queue_inv (s : Svc) : Prop := {
  qi_active : activeTranslations s = length (running s);
  qi_max : limit_ok (maxConcurrent s);
  qi_processing : isProcessing s = true <-> items s <> [];
  qi_cache_max : maxSize (resultCache s) = 1000;
  qi_cache_inv : exists acc, lru_inv (resultCache s) acc
}.

(* ------------------------------------------------------------------ *)
(** ** Helpers of [translateBatch], and the progress of one hook call *)

(** The [for] loop over [batchResults]: [results[index] = text]. *)
Definition fill (results : list (option jsstr)) (brs : list (nat * jsstr)) :=
  fold_left (fun r iv => set_slot r (fst iv) (snd iv)) brs results.

(** The progress of one [translateSubtitles] call on [n] subtitles, with
    session [s]: after a cancellation it stays [{0, 0}]; otherwise its
    total is [n], and the items counted so far, those still awaiting
    [translate] and those beyond wave index [w] add up to at most [n]. *)
Definition sess_ok (h : Hook) (s : Session) (w : nat) : Prop :=
  (isCancelled h = true /\ progressRef h = (0, 0)) \/
  (isCancelled h = false /\ snd (progressRef h) = length (subs s) /\
   fst (progressRef h) + length (pending s) +
     (length (subs s) - Nat.min (length (subs s)) w) <= length (subs s)).

Definition single_inv (sid n : nat) (h : Hook) : Prop :=
  progress h = progressRef h /\
  ((sessions h = [] /\ progressRef h = (0, 0) /\ n = 0) \/
   exists s, sessions h = [(sid, s)] /\ length (subs s) = n /\ sess_ok h s (wave s + 5)).

(** Inputs used by the examples. *)
Definition texts_ab : list jsstr := [lit "a"; lit "b"].

Definition cancel_mid_wave_events : list hook_event :=
  [HResolve 1 0 (Some (lit "x")); HCancel; HResolve 1 1 (Some (lit "y")); HWaveDone 1].

Lemma str_eqb_eq : forall a b, str_eqb a b = true <-> a = b.
Proof.
  induction a as [|x a IH]; destruct b as [|y b]; simpl; split; intro H;
    try discriminate; try reflexivity.
  - apply andb_true_iff in H as [H1 H2]. apply N.eqb_eq in H1.
    apply IH in H2. subst. reflexivity.
  - injection H as <- <-. rewrite N.eqb_refl. simpl. apply IH. reflexivity.
Qed.

Lemma str_eqb_refl : forall a, str_eqb a a = true.
Proof. intro a. apply str_eqb_eq. reflexivity. Qed.

Lemma str_eqb_neq : forall a b, str_eqb a b = false <-> a <> b.
Proof.
  intros a b. rewrite <- str_eqb_eq. destruct (str_eqb a b); split; congruence.
Qed.

(* ------------------------------------------------------------------ *)
(** ** Lemmas on the association-list [Map] *)

Lemma sget_sset {V} (m : list (jsstr * V)) k v k' :
  sget (sset m k v) k' = if str_eqb k' k then Some v else sget m k'.
Proof.
  unfold sget, sset. induction m as [|[k0 v0] m IH]; simpl.
  - reflexivity.
  - destruct (str_eqb k k0) eqn:E.
    + apply str_eqb_eq in E. subst k0. simpl. destruct (str_eqb k' k); reflexivity.
    + simpl. rewrite IH. destruct (str_eqb k' k0) eqn:E1, (str_eqb k' k) eqn:E2;
        try reflexivity.
      apply str_eqb_eq in E1, E2. subst. rewrite str_eqb_refl in E. discriminate.
Qed.

Lemma sget_sdel {V} (m : list (jsstr * V)) k k' :
  sget (sdel m k) k' = if str_eqb k' k then None else sget m k'.
Proof.
  unfold sget, sdel, map_delete. induction m as [|[k0 v0] m IH]; simpl.
  - destruct (str_eqb k' k); reflexivity.
  - destruct (str_eqb k k0) eqn:E; simpl.
    + apply str_eqb_eq in E. subst k0. rewrite IH.
      destruct (str_eqb k' k); reflexivity.
    + rewrite IH. destruct (str_eqb k' k0) eqn:E1, (str_eqb k' k) eqn:E2;
        try reflexivity.
      apply str_eqb_eq in E1, E2. subst. rewrite str_eqb_refl in E. discriminate.
Qed.

Lemma sget_in {V} (m : list (jsstr * V)) k :
  (exists v, sget m k = Some v) <-> In k (map fst m).
Proof.
  unfold sget. induction m as [|[k0 v0] m IH]; simpl.
  - split; [intros [v H]; discriminate | tauto].
  - destruct (str_eqb k k0) eqn:E.
    + apply str_eqb_eq in E. subst. split; [tauto|]. intros _. eauto.
    + apply str_eqb_neq in E. rewrite IH. split; [tauto|].
      intros [H|H]; [congruence|exact H].
Qed.

Lemma shas_in {V} (m : list (jsstr * V)) k :
  shas m k = true <-> In k (map fst m).
Proof.
  rewrite <- sget_in. unfold shas, map_has. fold (@sget V).
  destruct (sget m k); split; intro H; eauto; try discriminate.
  destruct H as [v Hv]; discriminate.
Qed.

Lemma map_fst_sset_in {V} (m : list (jsstr * V)) k v :
  In k (map fst m) -> map fst (sset m k v) = map fst m.
Proof.
  unfold sset. induction m as [|[k0 v0] m IH]; simpl; [tauto|].
  intro H. destruct (str_eqb k k0) eqn:E; simpl; [reflexivity|].
  apply str_eqb_neq in E. rewrite IH; [reflexivity|]. destruct H; congruence.
Qed.

Lemma map_fst_sset_notin {V} (m : list (jsstr * V)) k v :
  ~ In k (map fst m) -> map fst (sset m k v) = map fst m ++ [k].
Proof.
  unfold sset. induction m as [|[k0 v0] m IH]; simpl; [reflexivity|].
  intro H. destruct (str_eqb k k0) eqn:E.
  - apply str_eqb_eq in E. exfalso. auto.
  - simpl. rewrite IH; [reflexivity|]. tauto.
Qed.

Lemma map_fst_sdel {V} (m : list (jsstr * V)) k :
  map fst (sdel m k) = remove_key k (map fst m).
Proof.
  unfold sdel, map_delete, remove_key. induction m as [|[k0 v0] m IH]; simpl;
    [reflexivity|].
  replace (str_eqb k0 k) with (str_eqb k k0).
  - destruct (str_eqb k k0); simpl; rewrite IH; reflexivity.
  - destruct (str_eqb k k0) eqn:E, (str_eqb k0 k) eqn:E'; try reflexivity;
      [apply str_eqb_eq in E | apply str_eqb_eq in E']; subst;
      rewrite str_eqb_refl in *; discriminate.
Qed.

(* ------------------------------------------------------------------ *)
(** ** Lemmas on [remove_key] *)

Lemma in_remove_key k x l : In x (remove_key k l) <-> In x l /\ x <> k.
Proof.
  unfold remove_key. rewrite filter_In, negb_true_iff, str_eqb_neq. tauto.
Qed.

Lemma remove_key_notin k l : ~ In k l -> remove_key k l = l.
Proof.
  unfold remove_key. induction l as [|x l IH]; simpl; [reflexivity|].
  intro H. destruct (str_eqb x k) eqn:E.
  - apply str_eqb_eq in E. subst. tauto.
  - simpl. rewrite IH; tauto.
Qed.

Lemma NoDup_remove_key k l : NoDup l -> NoDup (remove_key k l).
Proof. intro H. apply NoDup_filter. exact H. Qed.

Lemma remove_key_cons k x l :
  remove_key k (x :: l) = if str_eqb x k then remove_key k l else x :: remove_key k l.
Proof. unfold remove_key. simpl. destruct (str_eqb x k); reflexivity. Qed.

Lemma perm_remove_key k l :
  NoDup l -> In k l -> Permutation l (k :: remove_key k l).
Proof.
  induction l as [|x l IH]; [intros _ []|].
  intros Hnd Hin. inversion Hnd as [|? ? Hx Hnd']; subst.
  rewrite remove_key_cons. destruct (str_eqb x k) eqn:E.
  - apply str_eqb_eq in E. subst.
    rewrite remove_key_notin by exact Hx. reflexivity.
  - apply str_eqb_neq in E. destruct Hin as [Hin|Hin]; [congruence|].
    rewrite (IH Hnd' Hin) at 1. apply perm_swap.
Qed.

Lemma last_occ_def acc k : last_occ acc k = snd (fold_left (occ_step k) acc (0, 0)).
Proof. reflexivity. Qed.

Lemma fold_occ_fst k acc : forall i b,
  fst (fold_left (occ_step k) acc (i, b)) = i + length acc.
Proof.
  induction acc as [|x acc IH]; intros i b; simpl; [lia|].
  rewrite IH. lia.
Qed.

Lemma fold_occ_snd_le k acc : forall i b, b <= i ->
  snd (fold_left (occ_step k) acc (i, b)) <= i + length acc.
Proof.
  induction acc as [|x acc IH]; intros i b Hb; simpl; [lia|].
  specialize (IH (S i) (if str_eqb x k then S i else b)).
  destruct (str_eqb x k); lia.
Qed.

Lemma last_occ_le acc k : last_occ acc k <= length acc.
Proof. rewrite last_occ_def. apply (fold_occ_snd_le k acc 0 0). lia. Qed.

Lemma last_occ_snoc acc x k :
  last_occ (acc ++ [x]) k = if str_eqb x k then S (length acc) else last_occ acc k.
Proof.
  rewrite !last_occ_def, fold_left_app.
  pose proof (fold_occ_fst k acc 0 0) as Hf.
  destruct (fold_left (occ_step k) acc (0, 0)) as [i b]. simpl in *. subst i.
  reflexivity.
Qed.

Lemma getKey_truthy sl tl tx : truthy (getKey sl tl tx) = true.
Proof. unfold getKey. destruct sl; reflexivity. Qed.

Lemma lru_size_keys c acc : lru_inv c acc -> lru_size c = length (keys c).
Proof.
  intros [Hk Hc Hd _ _ _]. unfold lru_size. rewrite <- (length_map fst).
  symmetry. apply Permutation_length. apply NoDup_Permutation; auto.
Qed.

Lemma StronglySorted_filter {A} (R : A -> A -> Prop) f l :
  StronglySorted R l -> StronglySorted R (filter f l).
Proof.
  induction l as [|a l IH]; intro Hs; simpl; [constructor|].
  inversion Hs as [|? ? Hs' Hf]; subst. destruct (f a); [|auto].
  constructor; [auto|]. rewrite Forall_forall in *. intros b Hb.
  apply filter_In in Hb. apply Hf. tauto.
Qed.

Lemma sorted_snoc_other acc x l :
  StronglySorted (fresher acc) l -> ~ In x l ->
  StronglySorted (fresher (acc ++ [x])) l.
Proof.
  induction l as [|a l IH]; intros Hs Hn; [constructor|].
  inversion Hs as [|? ? Hs' Hf]; subst. constructor.
  - apply IH; [exact Hs'|]. intro H; apply Hn; right; exact H.
  - rewrite Forall_forall in *. intros b Hb. specialize (Hf b Hb).
    unfold fresher in *. rewrite !last_occ_snoc.
    destruct (str_eqb x b) eqn:E1;
      [apply str_eqb_eq in E1; subst b; exfalso; apply Hn; right; exact Hb|].
    destruct (str_eqb x a) eqn:E2;
      [apply str_eqb_eq in E2; subst a; exfalso; apply Hn; left; reflexivity|].
    exact Hf.
Qed.

Lemma sorted_promote acc x l :
  StronglySorted (fresher acc) l ->
  StronglySorted (fresher (acc ++ [x])) (x :: remove_key x l).
Proof.
  intro Hs. constructor.
  - apply sorted_snoc_other.
    + apply StronglySorted_filter. exact Hs.
    + rewrite in_remove_key. tauto.
  - apply Forall_forall. intros b Hb. apply in_remove_key in Hb as [_ Hb].
    unfold fresher. rewrite !last_occ_snoc, str_eqb_refl.
    apply str_eqb_neq in Hb. destruct (str_eqb x b) eqn:E.
    + apply str_eqb_eq in E. apply str_eqb_neq in Hb. congruence.
    + pose proof (last_occ_le acc b). lia.
Qed.

Lemma StronglySorted_app_l {A} (R : A -> A -> Prop) l1 l2 :
  StronglySorted R (l1 ++ l2) -> StronglySorted R l1.
Proof.
  induction l1 as [|a l1 IH]; intro Hs; [constructor|].
  inversion Hs as [|? ? Hs' Hf]; subst. constructor; [auto|].
  rewrite Forall_forall in *. intros b Hb. apply Hf. apply in_or_app. tauto.
Qed.

Lemma StronglySorted_last {A} (R : A -> A -> Prop) l x :
  StronglySorted R (l ++ [x]) -> forall y, In y l -> R y x.
Proof.
  induction l as [|a l IH]; intros Hs y Hy; [destruct Hy|].
  inversion Hs as [|? ? Hs' Hf]; subst. destruct Hy as [<-|Hy].
  - rewrite Forall_forall in Hf. apply Hf. apply in_or_app. right. left. reflexivity.
  - apply IH; assumption.
Qed.

Lemma NoDup_snoc {A} (l : list A) a : NoDup l -> ~ In a l -> NoDup (l ++ [a]).
Proof.
  intros H Hn. apply NoDup_app; auto using NoDup_cons, NoDup_nil.
  - intros x Hx [<-|[]]. contradiction.
Qed.

Lemma pop_spec {A} (l : list A) :
  match pop l with
  | (l', Some x) => l = l' ++ [x]
  | (l', None) => l = [] /\ l' = []
  end.
Proof.
  unfold pop. destruct (rev l) as [|x r] eqn:R.
  - split; [|reflexivity]. rewrite <- (rev_involutive l), R. reflexivity.
  - rewrite <- (rev_involutive l), R. reflexivity.
Qed.

(** The promotion shared by a truthy [get] and a [set] of a present key. *)
Lemma lru_inv_promote c acc key cache' :
  lru_inv c acc -> In key (keys c) -> map fst cache' = map fst (cache c) ->
  lru_inv (mkLRU cache' (maxSize c) (key :: remove_key key (keys c))) (acc ++ [key]).
Proof.
  intros [Hk Hc Hd Ht Hb Ho] Hin Hm.
  pose proof (perm_remove_key key (keys c) Hk Hin) as P.
  constructor; cbn [keys cache maxSize]; rewrite ?Hm.
  - apply (Permutation_NoDup P). exact Hk.
  - exact Hc.
  - intro k. rewrite <- Hd. split; apply Permutation_in; [symmetry|]; exact P.
  - intros k Hk'. apply Ht. apply (Permutation_in _ (Permutation_sym P)). exact Hk'.
  - rewrite <- (Permutation_length P). exact Hb.
  - apply sorted_promote. exact Ho.
Qed.

Lemma lru_get_inv c acc sl tl tx :
  lru_inv c acc ->
  let '(c', v) := lru_get c sl tl tx in
  lru_inv c' (if truthy_opt v then acc ++ [getKey sl tl tx] else acc).
Proof.
  intro I. unfold lru_get.
  destruct (truthy_opt (sget (cache c) (getKey sl tl tx))) eqn:T; rewrite T; [|exact I].
  apply lru_inv_promote; [exact I| |reflexivity].
  apply (inv_dom _ _ I). apply sget_in.
  destruct (sget (cache c) (getKey sl tl tx)) as [v|]; [eauto|discriminate].
Qed.

(** The insertion of a fresh key in front of [ks], a prefix of the keys. *)
Lemma lru_inv_insert c acc key ks cache1 v :
  lru_inv c acc -> ~ In key (keys c) -> truthy key = true ->
  (exists tl, keys c = ks ++ tl) ->
  S (length ks) <= maxSize c ->
  (forall k, In k ks <-> In k (map fst cache1)) ->
  NoDup (map fst cache1) ->
  lru_inv (mkLRU (sset cache1 key v) (maxSize c) (key :: ks)) (acc ++ [key]).
Proof.
  intros [Hk Hc Hd Ht Hb Ho] Hn Hkt [tl Htl] Hlen Hd1 Hc1.
  assert (Hsub : forall k, In k ks -> In k (keys c))
    by (intros k H; rewrite Htl; apply in_or_app; tauto).
  assert (Hn1 : ~ In key (map fst cache1)) by (rewrite <- Hd1; auto).
  constructor; cbn [keys cache maxSize].
  - constructor; [auto|]. rewrite Htl in Hk. apply NoDup_app_remove_r in Hk. exact Hk.
  - rewrite map_fst_sset_notin by exact Hn1. apply NoDup_snoc; assumption.
  - intro k. rewrite map_fst_sset_notin by exact Hn1. rewrite in_app_iff, <- Hd1.
    simpl. intuition.
  - intros k [<-|Hk']; auto.
  - simpl. exact Hlen.
  - rewrite <- (remove_key_notin key ks) by auto.
    apply sorted_promote. rewrite Htl in Ho. eapply StronglySorted_app_l. exact Ho.
Qed.

Lemma lru_set_inv c acc sl tl tx v :
  0 < maxSize c -> lru_inv c acc ->
  lru_inv (lru_set c sl tl tx v) (acc ++ [getKey sl tl tx]).
Proof.
  intros Hpos I. pose proof I as [Hk Hc Hd Ht Hb Ho].
  unfold lru_set. set (key := getKey sl tl tx).
  assert (Hkt : truthy key = true) by apply getKey_truthy.
  destruct (shas (cache c) key) eqn:H.
  - apply lru_inv_promote; [exact I| |].
    + apply Hd. apply shas_in. exact H.
    + apply map_fst_sset_in. apply shas_in. exact H.
  - assert (Hn : ~ In key (keys c)).
    { rewrite Hd, <- shas_in, H. discriminate. }
    pose proof (lru_size_keys c acc I) as Hsz. unfold lru_size in Hsz.
    destruct (maxSize c <=? length (cache c)) eqn:F.
    + apply Nat.leb_le in F.
      pose proof (pop_spec (keys c)) as Hp.
      destruct (pop (keys c)) as [ks [x|]].
      * assert (Hx : In x (keys c)) by (rewrite Hp; apply in_or_app; simpl; tauto).
        rewrite (Ht x Hx).
        assert (Hxks : ~ In x ks).
        { rewrite Hp in Hk. apply NoDup_remove_2 in Hk. rewrite app_nil_r in Hk. exact Hk. }
        apply lru_inv_insert; auto.
        -- exists [x]. exact Hp.
        -- rewrite Hp, length_app in Hb. simpl in Hb. lia.
        -- intro k. rewrite map_fst_sdel, in_remove_key, <- Hd, Hp, in_app_iff.
           simpl. split; [intro Hk'; split; [tauto|congruence]|].
           intros [[Hk'|[<-|[]]] Hne]; [exact Hk'|congruence].
        -- rewrite map_fst_sdel. apply NoDup_remove_key. exact Hc.
      * destruct Hp as [Hp _]. rewrite Hp in Hsz. simpl in Hsz. lia.
    + apply Nat.leb_gt in F.
      apply lru_inv_insert; auto.
      * exists []. rewrite app_nil_r. reflexivity.
      * lia.
Qed.

Lemma lru_clear_inv c acc : lru_inv (lru_clear c) acc.
Proof.
  constructor; cbn; try tauto; try constructor; lia.
Qed.

Lemma newLRU_inv m : lru_inv (newLRU m) [].
Proof. apply (lru_clear_inv (newLRU m)). Qed.

Lemma step_op_inv st op :
  0 < maxSize (fst st) -> lru_inv (fst st) (snd st) ->
  lru_inv (fst (step_op st op)) (snd (step_op st op)) /\
  maxSize (fst (step_op st op)) = maxSize (fst st).
Proof.
  destruct st as [c acc]. simpl. intros Hpos I. destruct op as [sl tl tx|sl tl tx v|].
  - pose proof (lru_get_inv c acc sl tl tx I) as G. simpl.
    unfold lru_get in *.
    destruct (truthy_opt (sget (cache c) (getKey sl tl tx))); simpl; auto.
  - simpl. split; [apply lru_set_inv; auto|].
    unfold lru_set. destruct (shas (cache c) (getKey sl tl tx));
      [reflexivity|]. destruct (maxSize c <=? length (cache c)); [|reflexivity].
    destruct (pop (keys c)) as [ks [x|]]; [destruct (truthy x)|]; reflexivity.
  - simpl. split; [apply lru_clear_inv|reflexivity].
Qed.

Lemma run_ops_inv_gen ops : forall st,
  0 < maxSize (fst st) -> lru_inv (fst st) (snd st) ->
  lru_inv (fst (fold_left step_op ops st)) (snd (fold_left step_op ops st)) /\
  maxSize (fst (fold_left step_op ops st)) = maxSize (fst st).
Proof.
  induction ops as [|op ops IH]; intros st Hpos I; simpl; [auto|].
  destruct (step_op_inv st op Hpos I) as [I' Hm].
  destruct (IH (step_op st op)) as [I'' Hm']; [lia|exact I'|]. split; congruence.
Qed.

Lemma run_ops_inv m ops :
  0 < m -> lru_inv (fst (run_ops (newLRU m) ops)) (snd (run_ops (newLRU m) ops)) /\
           maxSize (fst (run_ops (newLRU m) ops)) = m.
Proof.
  intro Hm. apply (run_ops_inv_gen ops (newLRU m, [])); [exact Hm|apply newLRU_inv].
Qed.

Lemma lru_set_victim c acc sl tl tx v :
  0 < maxSize c -> lru_inv c acc ->
  ~ In (getKey sl tl tx) (map fst (cache c)) -> maxSize c <= lru_size c ->
  exists victim,
    In victim (map fst (cache c)) /\
    (forall k', In k' (map fst (cache c)) -> k' <> victim ->
                last_occ acc victim < last_occ acc k') /\
    sget (cache (lru_set c sl tl tx v)) victim = None /\
    (forall k', k' <> victim -> k' <> getKey sl tl tx ->
                sget (cache (lru_set c sl tl tx v)) k' = sget (cache c) k').
Proof.
  intros Hpos I Hn Hfull. pose proof I as [Hk Hc Hd Ht Hb Ho].
  pose proof (lru_size_keys c acc I) as Hsz.
  pose proof (pop_spec (keys c)) as Hp.
  unfold lru_set. set (key := getKey sl tl tx) in *.
  assert (Hh : shas (cache c) key = false)
    by (destruct (shas (cache c) key) eqn:E; [apply shas_in in E; tauto|reflexivity]).
  rewrite Hh. unfold lru_size in *.
  replace (maxSize c <=? length (cache c)) with true by (symmetry; apply Nat.leb_le; lia).
  destruct (pop (keys c)) as [ks [x|]].
  2:{ destruct Hp as [Hp _]. rewrite Hsz, Hp in Hfull. simpl in Hfull. lia. }
  assert (Hx : In x (keys c)) by (rewrite Hp; apply in_or_app; simpl; tauto).
  rewrite (Ht x Hx). exists x. cbn [cache].
  assert (Hxk : x <> key) by (intro; subst; rewrite Hd in Hx; tauto).
  split; [apply Hd; exact Hx|]. split; [|split].
  - intros k' Hk' Hne. rewrite <- Hd, Hp, in_app_iff in Hk'.
    destruct Hk' as [Hk'|[<-|[]]]; [|congruence].
    rewrite Hp in Ho. exact (StronglySorted_last _ _ _ Ho k' Hk').
  - rewrite sget_sset, sget_sdel, str_eqb_refl.
    destruct (str_eqb x key) eqn:E; [apply str_eqb_eq in E; congruence|reflexivity].
  - intros k' H1 H2. rewrite sget_sset, sget_sdel.
    apply str_eqb_neq in H1, H2. rewrite H1, H2. reflexivity.
Qed.

Lemma lru_inv_snoc_absent c acc x :
  lru_inv c acc -> ~ In x (keys c) -> lru_inv c (acc ++ [x]).
Proof.
  intros [Hk Hc Hd Ht Hb Ho] Hn. constructor; auto. apply sorted_snoc_other; assumption.
Qed.

Lemma lru_get_shape c sl tl tx c' v :
  lru_get c sl tl tx = (c', v) ->
  v = sget (cache c) (getKey sl tl tx) /\ (truthy_opt v = false -> c' = c) /\
  cache c' = cache c /\ maxSize c' = maxSize c.
Proof.
  unfold lru_get. destruct (truthy_opt (sget (cache c) (getKey sl tl tx))) eqn:T;
    intro H; injection H as <- <-; repeat split; try reflexivity; intro; congruence.
Qed.

Lemma lru_set_vals c sl tl tx v :
  vals_truthy c -> truthy v = true -> vals_truthy (lru_set c sl tl tx v).
Proof.
  intros V Hv k w. unfold lru_set.
  destruct (if shas (cache c) (getKey sl tl tx) then _ else _) as [cache1 keys1] eqn:E1.
  assert (Sub : forall k0 w0, sget cache1 k0 = Some w0 -> sget (cache c) k0 = Some w0).
  { destruct (shas _ _); [injection E1 as <- _; auto|].
    destruct (maxSize c <=? length (cache c)); [|injection E1 as <- _; auto].
    destruct (pop (keys c)) as [ks [x|]]; [destruct (truthy x)|];
      injection E1 as <- _; auto.
    intros k0 w0. rewrite sget_sdel. destruct (str_eqb k0 x); [discriminate|auto]. }
  cbn [cache]. rewrite sget_sset. destruct (str_eqb k (getKey sl tl tx)).
  - intro H. injection H as <-. exact Hv.
  - intro H. apply (V k w). apply Sub. exact H.
Qed.

(** One operation, with the recency list extended by the key it touches. *)
Lemma step_op_touch c acc b op :
  0 < maxSize c -> lru_inv c acc -> vals_truthy c -> set_ok op = true ->
  lru_inv (fst (step_op (c, b) op)) (acc ++ [touch op]) /\
  vals_truthy (fst (step_op (c, b) op)) /\ maxSize (fst (step_op (c, b) op)) = maxSize c.
Proof.
  intros Hpos I V Hop. destruct op as [sl tl tx0|sl tl tx0 v|]; unfold touch;
    cbn [step_op op_key].
  - pose proof (lru_get_inv c acc sl tl tx0 I) as G.
    destruct (lru_get c sl tl tx0) as [c' v] eqn:E.
    destruct (lru_get_shape c sl tl tx0 c' v E) as (Hv & Hc & Ec & Em). cbn [fst].
    destruct (truthy_opt v) eqn:T.
    + split; [exact G|]. split; [|exact Em]. intros k w. rewrite Ec. apply V.
    + rewrite (Hc eq_refl). split; [|split; [exact V|reflexivity]].
      apply lru_inv_snoc_absent; [exact I|]. rewrite (inv_dom _ _ I), <- sget_in.
      intros [w Hw]. pose proof (V _ _ Hw) as Tw. rewrite <- Hv in Hw. rewrite Hw in T.
      cbn [truthy_opt] in T. congruence.
  - cbn [fst]. split; [apply lru_set_inv; auto|]. split.
    + apply lru_set_vals; [exact V|exact Hop].
    + unfold lru_set. destruct (if shas _ _ then _ else _). reflexivity.
  - cbn [fst]. split; [apply lru_clear_inv|]. split; [|reflexivity].
    intros k w H. discriminate H.
Qed.

Lemma run_touch ops : forall c acc b,
  0 < maxSize c -> lru_inv c acc -> vals_truthy c -> sets_truthy ops = true ->
  lru_inv (fst (fold_left step_op ops (c, b))) (acc ++ touches ops) /\
  maxSize (fst (fold_left step_op ops (c, b))) = maxSize c.
Proof.
  induction ops as [|op ops IH]; intros c acc b Hpos I V Hs.
  - cbn. rewrite app_nil_r. auto.
  - unfold sets_truthy in Hs. cbn [forallb] in Hs. apply andb_prop in Hs as [Ho Hs].
    destruct (step_op_touch c acc b op Hpos I V Ho) as (I' & V' & M).
    cbn [fold_left]. destruct (step_op (c, b) op) as [c' b'] eqn:E. cbn [fst] in *.
    unfold touches. cbn [map]. fold (touches ops).
    replace (acc ++ touch op :: touches ops) with ((acc ++ [touch op]) ++ touches ops)
      by (rewrite <- app_assoc; reflexivity).
    destruct (IH c' (acc ++ [touch op]) b') as [I'' M'']; [lia|exact I'|exact V'|exact Hs|].
    split; [exact I''|congruence].
Qed.

(** C3. For every sequence of [get]/[set]/[clear] on a cache built by
    [new LRUCache()] in which every [set] stores a non-empty value (as
    [translate] does), the cache holds at most 1000 entries; when a [set] of
    a new key happens at capacity, the victim is the present entry least
    recently accessed by [get] or [set]; a later [get] of the victim finds
    nothing, and the other entries keep their values. *)
Theorem lru_cache_bounded_and_lru (ops : list cache_op) :
  sets_truthy ops = true ->
  let c := fst (run_ops defaultLRU ops) in
  lru_size c <= 1000 /\
  forall sl tl tx v,
    ~ In (getKey sl tl tx) (map fst (cache c)) -> lru_size c = 1000 ->
    exists victim,
      In victim (map fst (cache c)) /\
      (forall k', In k' (map fst (cache c)) -> k' <> victim ->
                  last_touch ops victim < last_touch ops k') /\
      sget (cache (lru_set c sl tl tx v)) victim = None /\
      (forall sl' tl' tx', getKey sl' tl' tx' = victim ->
                  snd (lru_get (lru_set c sl tl tx v) sl' tl' tx') = None) /\
      (forall k', k' <> victim -> k' <> getKey sl tl tx ->
                  sget (cache (lru_set c sl tl tx v)) k' = sget (cache c) k').
Proof.
  intros Hs c.
  assert (V0 : vals_truthy (newLRU 1000)) by (intros k w H; discriminate H).
  destruct (run_touch ops (newLRU 1000) [] [] ltac:(cbn; lia) (newLRU_inv 1000) V0 Hs)
    as [I Hm].
  change (fst (fold_left step_op ops (newLRU 1000, []))) with c in I, Hm.
  cbn [app maxSize newLRU] in I, Hm. split.
  - rewrite (lru_size_keys c _ I). rewrite <- Hm. exact (inv_bound _ _ I).
  - intros sl tl tx0 v Hn Hsz.
    destruct (lru_set_victim c (touches ops) sl tl tx0 v) as (x & A & B & C & D);
      [lia|exact I|exact Hn|lia|].
    exists x. split; [exact A|]. split; [exact B|]. split; [exact C|]. split; [|exact D].
    intros sl' tl' tx' E. unfold lru_get. cbv zeta. rewrite E, C. reflexivity.
Qed.

(* ------------------------------------------------------------------ *)
(** ** Lemmas on the service's maps and queue *)

Lemma nget_map_set {V} (m : list (nat * V)) k v k' :
  nget (map_set Nat.eqb m k v) k' = if Nat.eqb k' k then Some v else nget m k'.
Proof.
  unfold nget. induction m as [|[k0 v0] m IH]; simpl.
  - reflexivity.
  - destruct (Nat.eqb k k0) eqn:E.
    + apply Nat.eqb_eq in E. subst k0. simpl. destruct (Nat.eqb k' k); reflexivity.
    + simpl. rewrite IH. destruct (Nat.eqb k' k0) eqn:E1, (Nat.eqb k' k) eqn:E2;
        try reflexivity.
      apply Nat.eqb_eq in E1, E2. subst. rewrite Nat.eqb_refl in E. discriminate.
Qed.

Lemma nget_cons {V} (m : list (nat * V)) k v k' :
  nget ((k, v) :: m) k' = if Nat.eqb k' k then Some v else nget m k'.
Proof. reflexivity. Qed.

Lemma nget_in {V} (m : list (nat * V)) k v : nget m k = Some v -> In (k, v) m.
Proof.
  unfold nget. induction m as [|[k0 v0] m IH]; simpl; [discriminate|].
  destruct (Nat.eqb k k0) eqn:E.
  - intro H. injection H as <-. apply Nat.eqb_eq in E. subst. left. reflexivity.
  - intro H. right. auto.
Qed.

Lemma nget_nodup {V} (m : list (nat * V)) k v :
  NoDup (map fst m) -> In (k, v) m -> nget m k = Some v.
Proof.
  unfold nget. induction m as [|[k0 v0] m IH]; simpl; [tauto|].
  intros Hnd [E|Hin]; inversion Hnd as [|? ? Hn Hnd']; subst.
  - injection E as -> ->. rewrite Nat.eqb_refl. reflexivity.
  - destruct (Nat.eqb k k0) eqn:E.
    + apply Nat.eqb_eq in E. subst. exfalso. apply Hn.
      apply (in_map fst) in Hin. exact Hin.
    + auto.
Qed.

Lemma sget_some_in {V} (m : list (jsstr * V)) k v : sget m k = Some v -> In (k, v) m.
Proof.
  unfold sget. induction m as [|[k0 v0] m IH]; simpl; [discriminate|].
  destruct (str_eqb k k0) eqn:E.
  - intro H. injection H as <-. apply str_eqb_eq in E. subst. left. reflexivity.
  - intro H. right. auto.
Qed.

Lemma sget_none {V} (m : list (jsstr * V)) k : sget m k = None -> ~ In k (map fst m).
Proof.
  intros H Hin. apply sget_in in Hin as [v Hv]. congruence.
Qed.

Lemma getKey_inj_text tx1 tx2 : getKey ja zh tx1 = getKey ja zh tx2 -> tx1 = tx2.
Proof. unfold getKey. intro H. do 4 apply app_inv_head in H. exact H. Qed.

Lemma drain_items fuel : forall s, same_but_items s (drain fuel s).
Proof.
  induction fuel as [|f IH]; intro s; simpl.
  - repeat split; reflexivity.
  - destruct (translationQueue s) as [|[p o] q] eqn:Q; [repeat split; auto; rewrite Q; reflexivity|].
    destruct (lt_num (activeTranslations s) (maxConcurrent s));
      [|repeat split; auto; rewrite Q; reflexivity].
    destruct (IH (mkSvc (resultCache s) (promiseCache s) q (running s ++ [(p, o)])
                    (S (activeTranslations s)) (maxConcurrent s) (isProcessing s)
                    (settled s) (nextPromise s))) as (H1 & H2 & H3 & H4 & H5 & H6).
    simpl in *. repeat split; try assumption. rewrite Q, <- H6. simpl.
    rewrite app_assoc. apply Permutation_cons_app. rewrite app_nil_r. reflexivity.
Qed.

Lemma processQueueIterative_items s : same_but_items s (processQueueIterative s).
Proof.
  unfold processQueueIterative.
  destruct (drain_items (length (translationQueue s)) s) as (H1 & H2 & H3 & H4 & H5 & H6).
  repeat split; simpl; assumption.
Qed.

Lemma startProcessingQueue_items s : same_but_items s (startProcessingQueue s).
Proof.
  unfold startProcessingQueue. destruct (isProcessing s).
  - repeat split; reflexivity.
  - destruct (processQueueIterative_items
      (mkSvc (resultCache s) (promiseCache s) (translationQueue s) (running s)
             (activeTranslations s) (maxConcurrent s) true (settled s) (nextPromise s)))
      as (H1 & H2 & H3 & H4 & H5 & H6).
    repeat split; simpl in *; assumption.
Qed.

Lemma svc_inv_same_but_items s s' cs :
  same_but_items s s' -> svc_inv s cs -> svc_inv s' cs.
Proof.
  intros (H1 & H2 & H3 & H4 & H5 & H6) I. destruct I.
  assert (Hin : forall x, In x (items s') <-> In x (items s)).
  { intro x. unfold items. split; apply Permutation_in; [symmetry|]; exact H6. }
  constructor; rewrite ?H1, ?H2, ?H3, ?H4.
  - assumption.
  - unfold items. apply (Permutation_NoDup (Permutation_map fst H6)). assumption.
  - intros p o Hp. apply si_item0. apply Hin. exact Hp.
  - assumption.
  - intros t p o Ht. destruct (si_owner0 t p o Ht) as (A & B & C & D).
    split; [exact A|]. split; [exact B|]. split; [exact C|].
    intro E. apply Hin. apply D. exact E.
  - assumption.
  - assumption.
  - assumption.
  - assumption.
Qed.

(** Updating one caller [t] that is not an owner, to a non-owner state. *)
Lemma svc_inv_callers s cs cs' t c :
  svc_inv s cs ->
  (forall p o, nget cs t <> Some (COwner p o)) -> (forall p o, c <> COwner p o) ->
  (forall t', nget cs' t' = if Nat.eqb t' t then Some c else nget cs t') ->
  svc_inv s cs'.
Proof.
  intros I Hnt Hc Hcs. destruct I. constructor; auto.
  - intros k p Hk. destruct (si_pc_owner0 k p Hk) as (t' & o & Ht' & Ho).
    exists t', o. split; [|exact Ho]. rewrite Hcs.
    destruct (Nat.eqb t' t) eqn:E; [|exact Ht'].
    apply Nat.eqb_eq in E. subst. exfalso. eapply Hnt. exact Ht'.
  - intros t' p o Ht'. rewrite Hcs in Ht'. destruct (Nat.eqb t' t);
      [injection Ht' as Ht'; exfalso; eapply Hc; exact Ht'|eauto].
  - intros t1 t2 p o1 o2 H1 H2. rewrite Hcs in H1, H2.
    destruct (Nat.eqb t1 t) eqn:E1;
      [injection H1 as H1; exfalso; eapply Hc; exact H1|].
    destruct (Nat.eqb t2 t) eqn:E2;
      [injection H2 as H2; exfalso; eapply Hc; exact H2|].
    eauto.
Qed.

Lemma svc_inv_resultCache s cs rc :
  svc_inv s cs ->
  (forall k, truthy_opt (sget (cache (resultCache s)) k) = false ->
             truthy_opt (sget (cache rc) k) = false) ->
  svc_inv (set_resultCache s rc) cs.
Proof.
  intros I H. destruct I. constructor; simpl; auto.
  intros k p Hk. apply H. eauto.
Qed.

Lemma lru_get_cache c sl tl tx :
  cache (fst (lru_get c sl tl tx)) = cache c /\
  snd (lru_get c sl tl tx) = sget (cache c) (getKey sl tl tx).
Proof.
  unfold lru_get. destruct (truthy_opt (sget (cache c) (getKey sl tl tx))); split; reflexivity.
Qed.

Lemma lru_set_other c sl tl tx v k :
  k <> getKey sl tl tx ->
  sget (cache (lru_set c sl tl tx v)) k = sget (cache c) k \/
  sget (cache (lru_set c sl tl tx v)) k = None.
Proof.
  intro Hk. apply str_eqb_neq in Hk. unfold lru_set.
  destruct (shas (cache c) (getKey sl tl tx)).
  - simpl. rewrite sget_sset, Hk. left. reflexivity.
  - destruct (maxSize c <=? length (cache c)).
    + destruct (pop (keys c)) as [ks [x|]]; [destruct (truthy x)|]; simpl;
        rewrite sget_sset, Hk; auto.
      rewrite sget_sdel. destruct (str_eqb k x); auto.
    + simpl. rewrite sget_sset, Hk. left. reflexivity.
Qed.

Lemma translateWithGoogleAPI_truthy o r v :
  truthy (trim (text o)) = true -> translateWithGoogleAPI o r = Some v -> truthy v = true.
Proof.
  intros Ht. unfold translateWithGoogleAPI.
  assert (Htx : truthy (text o) = true).
  { destruct (text o); [discriminate|reflexivity]. }
  destruct (unsupported _ _); [discriminate|].
  destruct (5000 <? _); [discriminate|].
  destruct r as [s|]; [|discriminate].
  destruct (truthy s) eqn:E1; simpl; [|intro H; injection H as <-; exact Htx].
  destruct (truthy (trim s)); simpl; intro H; injection H as <-; assumption.
Qed.

Lemma executeTranslationTask_truthy o rs v :
  truthy (trim (text o)) = true -> executeTranslationTask o rs = Some v -> truthy v = true.
Proof.
  intro Ht. unfold executeTranslationTask. generalize (S maxAttempts).
  induction rs as [|r rs IH]; intros [|f]; simpl; try discriminate.
  destruct (translateWithGoogleAPI o r) eqn:E.
  - intro H. injection H as <-. eapply translateWithGoogleAPI_truthy; eauto.
  - apply IH.
Qed.

Lemma new_item_perm {A} (q r : list A) x : Permutation ((q ++ [x]) ++ r) (x :: q ++ r).
Proof. rewrite <- app_assoc. simpl. symmetry. apply Permutation_middle. Qed.

Lemma new_owner_inv s cs t o rc :
  svc_inv s cs -> nget cs t = None -> admitted o ->
  cache rc = cache (resultCache s) ->
  truthy_opt (sget (cache rc) (optKey o)) = false ->
  sget (promiseCache s) (optKey o) = None ->
  svc_inv (mkSvc rc (sset (promiseCache s) (optKey o) (nextPromise s))
                 (translationQueue s ++ [(nextPromise s, o)]) (running s)
                 (activeTranslations s) (maxConcurrent s) (isProcessing s)
                 (settled s) (S (nextPromise s)))
          ((t, COwner (nextPromise s) o) :: cs).
Proof.
  intros I Ht Ho Hrc Hmiss Hpc. destruct I.
  set (p := nextPromise s) in *. set (key := optKey o) in *.
  assert (Hperm : Permutation ((translationQueue s ++ [(p, o)]) ++ running s)
                              ((p, o) :: items s)) by apply new_item_perm.
  assert (Hin : forall x, In x ((translationQueue s ++ [(p, o)]) ++ running s) <->
                          x = (p, o) \/ In x (items s)).
  { intro x. split; intro H.
    - apply (Permutation_in _ Hperm) in H. destruct H; auto.
    - apply (Permutation_in _ (Permutation_sym Hperm)). destruct H as [<-|H];
        [left|right]; auto. }
  assert (Hfresh : ~ In p (map fst (items s))).
  { intro H. apply in_map_iff in H as [[p' o'] [Hp' H]]. simpl in Hp'. subst p'.
    destruct (si_item0 _ _ H) as (_ & _ & Hlt & _). lia. }
  assert (Hother : forall k q, sget (promiseCache s) k = Some q -> k <> key).
  { intros k q Hk E. subst k. congruence. }
  assert (Hsett : nget (settled s) p = None).
  { destruct (nget (settled s) p) eqn:E; [|reflexivity].
    apply si_settled_lt0 in E. lia. }
  constructor; cbn [promiseCache translationQueue running settled nextPromise resultCache].
  - rewrite map_fst_sset_notin by (apply sget_none; exact Hpc).
    apply NoDup_snoc; [assumption|]. apply sget_none. exact Hpc.
  - unfold items in *. simpl.
    apply (Permutation_NoDup (Permutation_sym (Permutation_map fst Hperm))).
    simpl. constructor; assumption.
  - intros p' o' Hx. unfold items in Hx. simpl in Hx. apply Hin in Hx as [Hx|Hx].
    + injection Hx as -> ->. rewrite sget_sset, str_eqb_refl. repeat split; auto; apply Ho.
    + destruct (si_item0 _ _ Hx) as (A & B & C & D).
      rewrite sget_sset. replace (str_eqb (optKey o') key) with false
        by (symmetry; apply str_eqb_neq; eapply Hother; exact A).
      repeat split; auto; try lia; apply D.
  - intros k q Hk. rewrite sget_sset in Hk. destruct (str_eqb k key) eqn:E.
    + injection Hk as <-. apply str_eqb_eq in E. subst k.
      exists t, o. rewrite nget_cons, Nat.eqb_refl. auto.
    + destruct (si_pc_owner0 k q Hk) as (t' & o' & Ht' & Hk').
      exists t', o'. rewrite nget_cons. destruct (Nat.eqb t' t) eqn:Et; [|auto].
      apply Nat.eqb_eq in Et. subst. congruence.
  - intros t' q o' Ht'. rewrite nget_cons in Ht'. destruct (Nat.eqb t' t).
    + injection Ht' as -> ->. rewrite sget_sset, str_eqb_refl.
      split; [reflexivity|split; [lia|split; [exact Ho|]]].
      intros _. unfold items. simpl. apply Hin. left. reflexivity.
    + destruct (si_owner0 _ _ _ Ht') as (A & B & C & D).
      rewrite sget_sset. replace (str_eqb (optKey o') key) with false
        by (symmetry; apply str_eqb_neq; eapply Hother; exact A).
      split; [exact A|split; [lia|split; [exact C|]]].
      intro E. unfold items. simpl. apply Hin. right. auto.
  - intros t1 t2 q o1 o2 H1 H2. rewrite nget_cons in H1, H2.
    destruct (Nat.eqb t1 t) eqn:E1, (Nat.eqb t2 t) eqn:E2.
    + apply Nat.eqb_eq in E1, E2. congruence.
    + injection H1 as -> ->. destruct (si_owner0 _ _ _ H2) as (_ & B & _). lia.
    + injection H2 as -> ->. destruct (si_owner0 _ _ _ H1) as (_ & B & _). lia.
    + eauto.
  - intros q out H. apply si_settled_lt0 in H. lia.
  - assumption.
  - intros k q Hk. rewrite Hrc. rewrite sget_sset in Hk. destruct (str_eqb k key) eqn:E.
    + apply str_eqb_eq in E. subst k. rewrite <- Hrc. exact Hmiss.
    + eauto.
Qed.

Lemma svc_inv_returned s cs t r :
  svc_inv s cs -> nget cs t = None -> svc_inv s ((t, CReturned r) :: cs).
Proof.
  intros I Ht. apply (svc_inv_callers s cs _ t (CReturned r) I).
  - intros p o. rewrite Ht. discriminate.
  - discriminate.
  - intro t'. reflexivity.
Qed.

Lemma svc_inv_attached s cs t p :
  svc_inv s cs -> nget cs t = None -> svc_inv s ((t, CAttached p) :: cs).
Proof.
  intros I Ht. apply (svc_inv_callers s cs _ t (CAttached p) I).
  - intros q o. rewrite Ht. discriminate.
  - discriminate.
  - intro t'. reflexivity.
Qed.

Lemma translate_start_inv s cs t o :
  svc_inv s cs -> nget cs t = None ->
  svc_inv (fst (translate_start s o)) ((t, snd (translate_start s o)) :: cs).
Proof.
  intros I Ht. unfold translate_start.
  destruct (unsupported _ _) eqn:U; [apply svc_inv_returned; auto|].
  destruct (negb (truthy (trim (text o)))) eqn:W; [apply svc_inv_returned; auto|].
  destruct (lru_get_cache (resultCache s) (sourceLanguage o) (targetLanguage o) (text o))
    as [Hc Hr].
  destruct (lru_get (resultCache s) _ _ _) as [rc cr] eqn:G. simpl in Hc, Hr.
  assert (I1 : svc_inv (set_resultCache s rc) cs).
  { apply svc_inv_resultCache; [exact I|]. intros k. rewrite Hc. auto. }
  destruct (truthy_opt cr) eqn:T; [apply svc_inv_returned; auto|].
  simpl. destruct (sget (promiseCache s) _) as [p|] eqn:P;
    [apply svc_inv_attached; auto|].
  simpl. apply (svc_inv_same_but_items _ _ _ (startProcessingQueue_items _)).
  apply (new_owner_inv (set_resultCache s rc) cs t o rc I1 Ht).
  - split; [exact U|]. apply negb_false_iff. exact W.
  - reflexivity.
  - unfold optKey. rewrite Hc, <- Hr. exact T.
  - exact P.
Qed.

Lemma NoDup_app_inv {A} (l1 l2 : list A) :
  NoDup (l1 ++ l2) -> NoDup l1 /\ NoDup l2 /\ (forall a, In a l1 -> ~ In a l2).
Proof.
  intro H. split; [eapply NoDup_app_remove_r; exact H|].
  split; [eapply NoDup_app_remove_l; exact H|].
  induction l1 as [|b l1 IH]; [intros a []|].
  simpl in H. inversion H as [|? ? Hn Hd]; subst.
  intros a [<-|Ha] Hb; [apply Hn; apply in_or_app; right; exact Hb|].
  exact (IH Hd a Ha Hb).
Qed.

Lemma NoDup_map_filter {A B} (h : A -> B) f l :
  NoDup (map h l) -> NoDup (map h (filter f l)).
Proof.
  induction l as [|a l IH]; simpl; [auto|]. intro H. inversion H as [|? ? Hn Hd]; subst.
  destruct (f a); simpl; [|auto]. constructor; [|auto].
  intro Hi. apply Hn. apply in_map_iff in Hi as [x [Hx Hi]].
  apply filter_In in Hi as [Hi _]. rewrite <- Hx. apply in_map. exact Hi.
Qed.

Lemma in_map_filter {A B} (h : A -> B) f l x :
  In x (map h (filter f l)) -> In x (map h l).
Proof.
  intro Hi. apply in_map_iff in Hi as [y [Hy Hi]].
  apply filter_In in Hi as [Hi _]. rewrite <- Hy. apply in_map. exact Hi.
Qed.

Lemma settle_task_inv s cs p o out :
  svc_inv s cs -> In (p, o) (running s) ->
  (forall v, out = Some v -> truthy v = true) ->
  svc_inv (settle_task s p out) cs.
Proof.
  intros I Hp Hout. unfold settle_task.
  apply (svc_inv_same_but_items _ _ _ (processQueueIterative_items _)).
  destruct I.
  set (f := fun po : nat * TranslationOptions => negb (Nat.eqb (fst po) p)).
  assert (Hpi : In (p, o) (items s)) by (unfold items; apply in_or_app; right; exact Hp).
  destruct (si_item0 _ _ Hpi) as (_ & Hps & Hpn & _).
  assert (Hin : forall x, In x (translationQueue s ++ filter f (running s)) ->
                          In x (items s) /\ fst x <> p).
  { intros [q o'] Hx. apply in_app_or in Hx as [Hx|Hx].
    - split; [unfold items; apply in_or_app; left; exact Hx|]. simpl. intro E. subst q.
      assert (Hq : In (p, o') (items s)) by (unfold items; apply in_or_app; left; exact Hx).
      unfold items in si_items_nodup0. rewrite map_app in si_items_nodup0.
      apply NoDup_app_inv in si_items_nodup0 as (_ & _ & Hd).
      apply (Hd p); apply in_map_iff; [exists (p, o')|exists (p, o)]; auto.
    - apply filter_In in Hx as [Hx Hf]. unfold f in Hf. simpl in Hf.
      apply negb_true_iff, Nat.eqb_neq in Hf.
      split; [unfold items; apply in_or_app; right; exact Hx|exact Hf]. }
  constructor; unfold items in *; cbn [promiseCache translationQueue running settled
                                      nextPromise resultCache] in *.
  - assumption.
  - rewrite map_app in *. apply NoDup_app_inv in si_items_nodup0 as (A & B & C).
    apply NoDup_app; auto.
    + apply NoDup_map_filter. exact B.
    + intros x Hx Hy. apply in_map_filter in Hy. exact (C x Hx Hy).
  - intros q o' Hx. destruct (Hin _ Hx) as [Hx' Hq]. simpl in Hq.
    destruct (si_item0 _ _ Hx') as (A & B & C & D).
    rewrite nget_cons. apply Nat.eqb_neq in Hq. rewrite Hq. auto.
  - assumption.
  - intros t q o' Ht. destruct (si_owner0 _ _ _ Ht) as (A & B & C & D).
    split; [exact A|split; [exact B|split; [exact C|]]].
    rewrite nget_cons. destruct (Nat.eqb q p) eqn:E; [discriminate|].
    intro N. specialize (D N). apply in_app_or in D as [D|D]; apply in_or_app;
      [left; exact D|right]. apply filter_In. split; [exact D|].
    unfold f. simpl. rewrite E. reflexivity.
  - assumption.
  - intros q out' H. rewrite nget_cons in H. destruct (Nat.eqb q p) eqn:E.
    + apply Nat.eqb_eq in E. subst. exact Hpn.
    + eauto.
  - intros q v H. rewrite nget_cons in H. destruct (Nat.eqb q p) eqn:E.
    + injection H as ->. auto.
    + eauto.
  - assumption.
Qed.

Lemma resume_owner_inv s cs t p o out :
  svc_inv s cs -> nget cs t = Some (COwner p o) -> nget (settled s) p = Some out ->
  svc_inv (translate_finish s o out) (map_set Nat.eqb cs t (CReturned out)).
Proof.
  intros I Ht Hs. destruct I.
  destruct (si_owner0 _ _ _ Ht) as (Hk & Hp & Ho & _).
  assert (Hne : forall k q, sget (promiseCache s) k = Some q -> q <> p -> k <> optKey o).
  { intros k q Hq N E. subst k. congruence. }
  assert (Hne2 : forall t' q o', t' <> t -> nget cs t' = Some (COwner q o') ->
                  optKey o' <> optKey o).
  { intros t' q o' Nt H' E. destruct (si_owner0 _ _ _ H') as (A & _).
    rewrite E, Hk in A. injection A as <-. apply Nt. eauto. }
  unfold translate_finish. fold (optKey o).
  constructor; unfold items in *; cbn [promiseCache translationQueue running settled
                                      nextPromise resultCache] in *.
  - rewrite map_fst_sdel. apply NoDup_remove_key. assumption.
  - assumption.
  - intros q o' Hx. destruct (si_item0 _ _ Hx) as (A & B & C & D).
    rewrite sget_sdel. replace (str_eqb (optKey o') (optKey o)) with false; [auto|].
    symmetry. apply str_eqb_neq. apply (Hne _ q A). intros ->. congruence.
  - intros k q Hq. rewrite sget_sdel in Hq. destruct (str_eqb k (optKey o)) eqn:E;
      [discriminate|]. apply str_eqb_neq in E.
    destruct (si_pc_owner0 _ _ Hq) as (t' & o' & H' & Hk').
    exists t', o'. rewrite nget_map_set. destruct (Nat.eqb t' t) eqn:Et; [|auto].
    apply Nat.eqb_eq in Et. subst t'. rewrite Ht in H'. injection H' as -> ->.
    congruence.
  - intros t' q o' H'. rewrite nget_map_set in H'. destruct (Nat.eqb t' t) eqn:Et;
      [discriminate|]. apply Nat.eqb_neq in Et.
    destruct (si_owner0 _ _ _ H') as (A & B & C & D).
    rewrite sget_sdel. replace (str_eqb (optKey o') (optKey o)) with false; [auto|].
    symmetry. apply str_eqb_neq. eauto.
  - intros t1 t2 q o1 o2 H1 H2. rewrite nget_map_set in H1, H2.
    destruct (Nat.eqb t1 t); [discriminate|]. destruct (Nat.eqb t2 t); [discriminate|].
    eauto.
  - assumption.
  - assumption.
  - intros k q Hq. rewrite sget_sdel in Hq. destruct (str_eqb k (optKey o)) eqn:E;
      [discriminate|]. apply str_eqb_neq in E.
    destruct out as [v|]; [|eauto].
    destruct (lru_set_other (resultCache s) (sourceLanguage o) (targetLanguage o)
                            (text o) v k E) as [R|R]; rewrite R; [eauto|reflexivity].
Qed.

Lemma resume_attached_inv s cs t p out :
  svc_inv s cs -> nget cs t = Some (CAttached p) ->
  svc_inv s (map_set Nat.eqb cs t (CReturned out)).
Proof.
  intros I Ht. apply (svc_inv_callers s cs _ t (CReturned out) I).
  - intros q o. rewrite Ht. discriminate.
  - discriminate.
  - intro t'. apply nget_map_set.
Qed.

Lemma clearCache_inv s cs : svc_inv s cs -> svc_inv (clearCache s) cs.
Proof.
  intro I. unfold clearCache. apply svc_inv_resultCache; [exact I|].
  intros k _. reflexivity.
Qed.

Lemma setMaxConcurrent_inv s cs n : svc_inv s cs -> svc_inv (setMaxConcurrent s n) cs.
Proof.
  intro I. unfold setMaxConcurrent.
  apply (svc_inv_same_but_items _ _ _ (startProcessingQueue_items _)).
  destruct I. constructor; unfold items in *; cbn [promiseCache translationQueue running
    settled nextPromise resultCache] in *; assumption.
Qed.

Lemma svc0_inv : svc_inv svc0 [].
Proof.
  constructor; unfold items; simpl; try discriminate; try (intros; contradiction);
    constructor.
Qed.

Lemma step_inv w e w' :
  svc_inv (svc w) (callers w) -> step w e = Some w' -> svc_inv (svc w') (callers w').
Proof.
  intros I. destruct w as [s cs]. simpl in I. destruct e as [t o|p rs|t| |n]; simpl.
  - destruct (nget cs t) eqn:Ht; [discriminate|].
    pose proof (translate_start_inv s cs t o I Ht) as J.
    destruct (translate_start s o). intro H. injection H as <-. exact J.
  - destruct (nget (running s) p) as [o|] eqn:Hp; [|discriminate].
    intro H. injection H as <-. simpl. apply nget_in in Hp.
    apply (settle_task_inv s cs p o); [exact I|exact Hp|].
    intros v Hv. eapply executeTranslationTask_truthy; [|exact Hv].
    destruct I. assert (Hi : In (p, o) (items s))
      by (unfold items; apply in_or_app; right; exact Hp).
    destruct (si_item0 _ _ Hi) as (_ & _ & _ & _ & A). exact A.
  - destruct (nget cs t) as [[r|p o|p]|] eqn:Ht; try discriminate.
    + destruct (nget (settled s) p) eqn:Hs; [|discriminate].
      intro H. injection H as <-. simpl. eapply resume_owner_inv; eauto.
    + destruct (nget (settled s) p) eqn:Hs; [|discriminate].
      destruct (pc_refers_to _ _); [discriminate|].
      intro H. injection H as <-. simpl. eapply resume_attached_inv; eauto.
  - intro H. injection H as <-. apply clearCache_inv. exact I.
  - intro H. injection H as <-. apply setMaxConcurrent_inv. exact I.
Qed.

Lemma reachable_inv w : reachable w -> svc_inv (svc w) (callers w).
Proof.
  induction 1 as [|w e w' _ IH Hs].
  - apply svc0_inv.
  - exact (step_inv w e w' IH Hs).
Qed.

Lemma set_resultCache_self s : set_resultCache s (resultCache s) = s.
Proof. destruct s. reflexivity. Qed.

Lemma lru_get_miss c sl tl txt :
  truthy_opt (sget (cache c) (getKey sl tl txt)) = false ->
  lru_get c sl tl txt = (c, sget (cache c) (getKey sl tl txt)).
Proof. intro H. unfold lru_get. rewrite H. reflexivity. Qed.

Lemma lru_set_get c sl tl txt v :
  sget (cache (lru_set c sl tl txt v)) (getKey sl tl txt) = Some v.
Proof.
  unfold lru_set.
  destruct (if shas (cache c) (getKey sl tl txt) then _ else _) as [c1 k1].
  simpl. rewrite sget_sset, str_eqb_refl. reflexivity.
Qed.

Lemma unsupported_false sl tl : unsupported sl tl = false -> sl = ja /\ tl = zh.
Proof.
  unfold unsupported. intro H. apply orb_false_iff in H as [H1 H2].
  apply negb_false_iff, str_eqb_eq in H1, H2. auto.
Qed.

Lemma admitted_key o txt :
  admitted o -> optKey o = getKey ja zh txt -> text o = txt /\ truthy (trim txt) = true.
Proof.
  intros [U T] E. apply unsupported_false in U as [E1 E2]. unfold optKey in E.
  rewrite E1, E2 in E. apply getKey_inj_text in E. subst. auto.
Qed.

Lemma trimStart_white s : forallb isWhite s = true -> trimStart s = [].
Proof.
  induction s as [|c s IH]; simpl; [reflexivity|].
  intro H. apply andb_true_iff in H as [H1 H2]. rewrite H1. auto.
Qed.

Lemma trim_white s : forallb isWhite s = true -> trim s = [].
Proof. intro H. unfold trim. rewrite (trimStart_white s H). reflexivity. Qed.

Lemma NoDup_item_keys pc (l : list (nat * TranslationOptions)) :
  NoDup (map fst l) ->
  (forall p o, In (p, o) l -> sget pc (optKey o) = Some p) ->
  NoDup (map (fun po => optKey (snd po)) l).
Proof.
  induction l as [|[p o] l IH]; simpl; intros Hnd Hk; [constructor|].
  inversion Hnd as [|? ? Hn Hd]; subst. constructor.
  - intro Hi. apply in_map_iff in Hi as [[q o'] [Eq Hi]]. simpl in Eq.
    assert (A : sget pc (optKey o') = Some q) by (apply Hk; right; exact Hi).
    assert (B : sget pc (optKey o) = Some p) by (apply Hk; left; reflexivity).
    rewrite Eq, B in A. injection A as ->. apply Hn.
    apply in_map_iff. exists (q, o'). auto.
  - apply IH; [exact Hd|]. intros p' o' H. apply Hk. right. exact H.
Qed.

Lemma run_reachable w es w' : reachable w -> run w es = Some w' -> reachable w'.
Proof.
  revert w. induction es as [|e es IH]; simpl; intros w R H.
  - injection H as <-. exact R.
  - destruct (step w e) as [w1|] eqn:E; [|discriminate].
    exact (IH w1 (reach_step w e w1 R E) H).
Qed.

Lemma w_one_pending_reachable : reachable w_one_pending.
Proof.
  apply (run_reachable world0 [ECall 0 (mkOpts ja zh (lit "a"))]); [constructor|].
  vm_compute. reflexivity.
Qed.

(** C2. In every reachable state of the service, the promise cache has at
    most one entry per key, and the queued and running tasks have pairwise
    distinct keys; a call of [translate] on a key that has a pending entry
    attaches to that entry's promise and leaves the service untouched (no new
    task is queued); every pending entry belongs to an owner call, and once
    its task has settled, successfully or not, the owner's resumption removes
    the entry. *)
Theorem promise_cache_one_entry_per_key w :
  reachable w ->
  NoDup (map fst (promiseCache (svc w))) /\
  NoDup (map (fun po => optKey (snd po)) (items (svc w))) /\
  (forall t txt p, nget (callers w) t = None ->
     sget (promiseCache (svc w)) (getKey ja zh txt) = Some p ->
     step w (ECall t (mkOpts ja zh txt)) =
       Some (mkWorld (svc w) ((t, CAttached p) :: callers w))) /\
  (forall k p, sget (promiseCache (svc w)) k = Some p ->
     exists t o, nget (callers w) t = Some (COwner p o) /\ optKey o = k /\
       forall out, nget (settled (svc w)) p = Some out ->
         exists w', step w (EResume t) = Some w' /\
                    sget (promiseCache (svc w')) k = None /\
                    nget (callers w') t = Some (CReturned out)).
Proof.
  intro R. pose proof (reachable_inv w R) as I.
  destruct w as [s cs]. simpl in *. destruct I.
  split; [assumption|]. split.
  { apply (NoDup_item_keys (promiseCache s)); [assumption|].
    intros p o H. apply si_item0. exact H. }
  split.
  - intros t txt p Ht Hp. simpl. rewrite Ht.
    destruct (si_pc_owner0 _ _ Hp) as (t' & o & Ht' & Hk).
    destruct (si_owner0 _ _ _ Ht') as (_ & _ & Ho & _).
    destruct (admitted_key o txt Ho Hk) as [_ Htr].
    unfold translate_start. cbn [sourceLanguage targetLanguage text].
    replace (unsupported ja zh) with false by reflexivity.
    rewrite Htr. simpl negb. cbv iota.
    rewrite lru_get_miss by (apply (si_pc_rc0 _ _ Hp)).
    rewrite (si_pc_rc0 _ _ Hp). simpl. rewrite Hp, set_resultCache_self. reflexivity.
  - intros k p Hp. destruct (si_pc_owner0 _ _ Hp) as (t & o & Ht & Hk).
    exists t, o. split; [exact Ht|]. split; [exact Hk|].
    intros out Hs. eexists. simpl. rewrite Ht, Hs. split; [reflexivity|].
    simpl. unfold translate_finish. simpl. fold (optKey o). rewrite Hk.
    rewrite sget_sdel, str_eqb_refl, nget_map_set, Nat.eqb_refl. auto.
Qed.

Lemma promise_cache_one_entry_per_key_witness :
  sget (promiseCache (svc w_one_pending)) (getKey ja zh (lit "a")) = Some 0 /\
  NoDup (map fst (promiseCache (svc w_one_pending))) /\
  NoDup (map (fun po => optKey (snd po)) (items (svc w_one_pending))) /\
  (forall t txt p, nget (callers w_one_pending) t = None ->
     sget (promiseCache (svc w_one_pending)) (getKey ja zh txt) = Some p ->
     step w_one_pending (ECall t (mkOpts ja zh txt)) =
       Some (mkWorld (svc w_one_pending) ((t, CAttached p) :: callers w_one_pending))) /\
  (forall k p, sget (promiseCache (svc w_one_pending)) k = Some p ->
     exists t o, nget (callers w_one_pending) t = Some (COwner p o) /\ optKey o = k /\
       forall out, nget (settled (svc w_one_pending)) p = Some out ->
         exists w', step w_one_pending (EResume t) = Some w' /\
                    sget (promiseCache (svc w')) k = None /\
                    nget (callers w') t = Some (CReturned out)).
Proof.
  split; [vm_compute; reflexivity|].
  exact (promise_cache_one_entry_per_key w_one_pending w_one_pending_reachable).
Defined.

Lemma translate_start_hit s o v :
  admitted o -> sget (cache (resultCache s)) (optKey o) = Some v -> truthy v = true ->
  translate_start s o =
    (set_resultCache s (fst (lru_get (resultCache s) (sourceLanguage o)
                                     (targetLanguage o) (text o))),
     CReturned (Some v)).
Proof.
  intros [U T] H Hv. unfold translate_start. rewrite U, T. simpl negb. cbv iota.
  destruct (lru_get_cache (resultCache s) (sourceLanguage o) (targetLanguage o) (text o))
    as [_ Hr].
  destruct (lru_get _ _ _ _) as [rc cr]. simpl in Hr |- *. unfold optKey in H.
  rewrite Hr, H. simpl. rewrite Hv. reflexivity.
Qed.

Lemma served_again_hit w1 t2 o v :
  nget (callers w1) t2 = None -> admitted o ->
  sget (cache (resultCache (svc w1))) (optKey o) = Some v -> truthy v = true ->
  served_again w1 t2 o v.
Proof.
  intros H2 Ho Hk Hv. destruct w1 as [s1 cs1]. simpl in *.
  eexists. split.
  - simpl. rewrite H2, (translate_start_hit s1 o v Ho Hk Hv). reflexivity.
  - simpl. repeat split; try reflexivity.
    + exact Hk.
    + apply lru_get_cache.
Qed.

(** C6 (amended). Take a first call of [translate] with options [o] that
    returns a value [v], either synchronously ([e1] is the call) or as the
    owner of a new request resuming after its task succeeded. A second call
    with the same options right after it returns the same [v] and queues no
    new request. When the text is not blank, [v] is served from the result
    cache; a blank text is returned by the short-circuit instead. *)
Theorem translate_twice_same_result w w1 e1 t1 t2 o v :
  reachable w -> step w e1 = Some w1 ->
  (e1 = ECall t1 o \/ exists p, e1 = EResume t1 /\ nget (callers w) t1 = Some (COwner p o)) ->
  nget (callers w1) t1 = Some (CReturned (Some v)) ->
  nget (callers w1) t2 = None ->
  served_again w1 t2 o v.
Proof.
  intros R S1 He H1 H2. pose proof (reachable_inv w R) as I.
  destruct w as [s cs]. simpl in I.
  destruct He as [-> | (p & -> & Hown)]; unfold step in S1; cbn [svc callers] in *.
  - destruct (nget cs t1) eqn:Ht1; [discriminate|].
    destruct (translate_start s o) as [s1 c] eqn:TS. injection S1 as <-.
    cbn [callers svc] in H1, H2. rewrite nget_cons, Nat.eqb_refl in H1. injection H1 as ->.
    unfold translate_start in TS.
    destruct (unsupported _ _) eqn:U; [congruence|].
    destruct (negb (truthy (trim (text o)))) eqn:W.
    + injection TS as <- <-.
      exists s. split.
      * unfold step. cbn [svc callers]. rewrite H2. unfold translate_start. rewrite U, W. reflexivity.
      * repeat split; try reflexivity;
        match goal with T : truthy _ = true |- _ => rewrite T in W; discriminate end.
    + destruct (lru_get_cache (resultCache s) (sourceLanguage o) (targetLanguage o)
                              (text o)) as [Hc Hr].
      destruct (lru_get _ _ _ _) as [rc cr]. simpl in Hc, Hr.
      destruct (truthy_opt cr) eqn:T.
      * injection TS as <- ->.
        apply served_again_hit; [exact H2| |simpl; rewrite Hc; symmetry; exact Hr|exact T].
        split; [exact U|]. apply negb_false_iff. exact W.
      * destruct (sget _ _); congruence.
  - rewrite Hown in S1. destruct (nget (settled s) p) as [out|] eqn:Hs; [|discriminate].
    injection S1 as <-. simpl in H1. rewrite nget_map_set, Nat.eqb_refl in H1.
    injection H1 as ->. destruct I.
    destruct (si_owner0 _ _ _ Hown) as (_ & _ & Ho & _).
    apply served_again_hit; [exact H2|exact Ho| |eauto].
    simpl. unfold translate_finish, optKey. simpl. apply lru_set_get.
Qed.

(** Counterexample to C6 as stated: after a failed first call the second call
    issues a new request (promise 1 is running); and a blank text is returned
    twice although the result cache has no entry for it. *)
Lemma translate_twice_not_from_cache :
  match run world0 [ECall 0 opts_a; ESettle 0 all_fail; EResume 0; ECall 1 opts_a] with
  | Some w => nget (callers w) 0 = Some (CReturned None) /\
              nget (callers w) 1 = Some (COwner 1 opts_a) /\
              nget (running (svc w)) 1 = Some opts_a
  | None => False
  end /\
  match run world0 [ECall 0 opts_blank; ECall 1 opts_blank] with
  | Some w => nget (callers w) 0 = Some (CReturned (Some (lit " "))) /\
              nget (callers w) 1 = Some (CReturned (Some (lit " "))) /\
              sget (cache (resultCache (svc w))) (optKey opts_blank) = None
  | None => False
  end.
Proof. vm_compute. repeat split; reflexivity. Qed.

Lemma w_a_pending_done_reachable : reachable w_a_pending_done.
Proof.
  apply (run_reachable world0 [ECall 0 opts_a; ESettle 0 [RespText (lit "x")]]);
    [constructor|].
  vm_compute. reflexivity.
Qed.

Lemma translate_twice_same_result_witness : served_again w_a_resumed 1 opts_a (lit "x").
Proof.
  apply (translate_twice_same_result w_a_pending_done w_a_resumed (EResume 0) 0 1
           opts_a (lit "x") w_a_pending_done_reachable).
  - vm_compute. reflexivity.
  - right. exists 0. split; [reflexivity|vm_compute; reflexivity].
  - vm_compute. reflexivity.
  - vm_compute. reflexivity.
Defined.

(** C7. A call of [translate] (ja to zh) on a text made only of whitespace,
    the empty text included, returns that text unchanged and leaves the
    service as it was: nothing is queued, no task runs, nothing is written
    into the result cache. *)
Theorem whitespace_text_short_circuits txt w t :
  forallb isWhite txt = true -> nget (callers w) t = None ->
  step w (ECall t (mkOpts ja zh txt)) =
    Some (mkWorld (svc w) ((t, CReturned (Some txt)) :: callers w)).
Proof.
  intros Hw Ht. destruct w as [s cs]. unfold step. cbn [svc callers] in *. rewrite Ht.
  unfold translate_start. cbn [sourceLanguage targetLanguage text].
  replace (unsupported ja zh) with false by reflexivity.
  rewrite (trim_white txt Hw). reflexivity.
Qed.

Lemma whitespace_text_short_circuits_witness :
  step w_one_pending (ECall 1 (mkOpts ja zh [32%N; 12288%N; 10%N])) =
    Some (mkWorld (svc w_one_pending)
                  ((1, CReturned (Some [32%N; 12288%N; 10%N])) :: callers w_one_pending)).
Proof.
  apply whitespace_text_short_circuits; vm_compute; reflexivity.
Defined.

(** C10. A stored empty translation is returned by [get] without touching
    the cache (its recency position is unchanged), and [translate] on a
    non-blank text whose stored translation is empty does not return it:
    without a pending request it starts a new one (a new promise whose task
    is queued or running), otherwise it attaches to the pending one. *)
Theorem empty_cached_value_is_a_miss s txt :
  sget (cache (resultCache s)) (getKey ja zh txt) = Some [] ->
  truthy (trim txt) = true ->
  lru_get (resultCache s) ja zh txt = (resultCache s, Some []) /\
  snd (translate_start s (mkOpts ja zh txt)) <> CReturned (Some []) /\
  (sget (promiseCache s) (getKey ja zh txt) = None ->
     snd (translate_start s (mkOpts ja zh txt)) = COwner (nextPromise s) (mkOpts ja zh txt) /\
     In (nextPromise s, mkOpts ja zh txt) (items (fst (translate_start s (mkOpts ja zh txt)))) /\
     nextPromise (fst (translate_start s (mkOpts ja zh txt))) = S (nextPromise s)) /\
  (forall p, sget (promiseCache s) (getKey ja zh txt) = Some p ->
     translate_start s (mkOpts ja zh txt) = (s, CAttached p)).
Proof.
  intros He Ht.
  assert (G : lru_get (resultCache s) ja zh txt = (resultCache s, Some [])).
  { rewrite lru_get_miss by (rewrite He; reflexivity). rewrite He. reflexivity. }
  assert (TS : translate_start s (mkOpts ja zh txt) =
    match sget (promiseCache s) (getKey ja zh txt) with
    | Some p => (s, CAttached p)
    | None => (startProcessingQueue
                 (mkSvc (resultCache s)
                    (sset (promiseCache s) (getKey ja zh txt) (nextPromise s))
                    (translationQueue s ++ [(nextPromise s, mkOpts ja zh txt)])
                    (running s) (activeTranslations s) (maxConcurrent s)
                    (isProcessing s) (settled s) (S (nextPromise s))),
               COwner (nextPromise s) (mkOpts ja zh txt))
    end).
  { unfold translate_start. cbn [sourceLanguage targetLanguage text].
    replace (unsupported ja zh) with false by reflexivity.
    rewrite Ht. simpl negb. cbv iota. rewrite G. simpl truthy_opt. cbv iota.
    rewrite set_resultCache_self. reflexivity. }
  split; [exact G|]. split; [|split].
  - rewrite TS. destruct (sget (promiseCache s) (getKey ja zh txt)); simpl; intro E; discriminate E.
  - intro N. rewrite TS, N. split; [reflexivity|]. cbn [fst].
    destruct (startProcessingQueue_items
      (mkSvc (resultCache s) (sset (promiseCache s) (getKey ja zh txt) (nextPromise s))
         (translationQueue s ++ [(nextPromise s, mkOpts ja zh txt)])
         (running s) (activeTranslations s) (maxConcurrent s)
         (isProcessing s) (settled s) (S (nextPromise s)))) as (_ & _ & _ & E & _ & P).
    split; [|exact E]. unfold items. apply (Permutation_in _ P). simpl.
    apply in_or_app. left. apply in_or_app. right. left. reflexivity.
  - intros p P. rewrite TS, P. reflexivity.
Qed.

Lemma empty_cached_value_is_a_miss_witness :
  lru_get (resultCache svc_empty_a) ja zh (lit "a") = (resultCache svc_empty_a, Some []) /\
  snd (translate_start svc_empty_a (mkOpts ja zh (lit "a"))) <> CReturned (Some []) /\
  (sget (promiseCache svc_empty_a) (getKey ja zh (lit "a")) = None ->
     snd (translate_start svc_empty_a (mkOpts ja zh (lit "a"))) =
       COwner (nextPromise svc_empty_a) (mkOpts ja zh (lit "a")) /\
     In (nextPromise svc_empty_a, mkOpts ja zh (lit "a"))
        (items (fst (translate_start svc_empty_a (mkOpts ja zh (lit "a"))))) /\
     nextPromise (fst (translate_start svc_empty_a (mkOpts ja zh (lit "a")))) =
       S (nextPromise svc_empty_a)) /\
  (forall p, sget (promiseCache svc_empty_a) (getKey ja zh (lit "a")) = Some p ->
     translate_start svc_empty_a (mkOpts ja zh (lit "a")) = (svc_empty_a, CAttached p)).
Proof.
  apply empty_cached_value_is_a_miss; vm_compute; reflexivity.
Defined.

(** C1 (the code leaves a slot unfilled). With ten uncached texts of 1001
    code units, [dynamicBatchSize] is 10, the first batch has 10010 > 10000
    characters, so [effectiveBatchSize = floor(10 * 10000 / 10010) = 9]: only
    nine texts are translated, [i] still advances by 10, and the last slot of
    the result is never written, although every [translate] call succeeds
    (here [translate] returns its input, to show which slot gets which text). *)
Theorem translateBatch_leaves_slot_unfilled :
  dynamicBatchSize 10 (snd (collect_tasks defaultLRU ja zh 0 long_texts)) = 10 /\
  translateBatch defaultLRU ja zh long_texts (fun t => Some t) =
    Some (map Some (firstn 9 long_texts) ++ [None]).
Proof. split; vm_compute; reflexivity. Qed.

Lemma byLength_one t : tlength t = 1 -> byLength [t] = 10000.
Proof. intro H. unfold byLength, sum_lengths. simpl. rewrite H. vm_compute. reflexivity. Qed.

(** The divisions are rounded as doubles: for seven tasks of total length
    2500, [10000 / (2500 / 7)] is [27.999999999999996] in JavaScript, so the
    term is 27, where the exact quotient would give 28. *)
Lemma byLength_double_rounding :
  byLength (map (fun i => mkTask i [97%N] (if i =? 6 then 358 else 357)) (seq 0 7)) = 27.
Proof. vm_compute. reflexivity. Qed.

(** C8 (the code does not shrink the size with the remaining count). The
    square-root term of [dynamicBatchSize] uses [texts.length], the number of
    all input texts, cached ones included, and it grows with that number.
    The same single remaining task of length 1 gets a sub-batch size of 10
    when the input has 4 texts (3 of them cached) and of 50 when it has 100
    texts or more (all but one cached). *)
Theorem dynamicBatchSize_grows_with_cached_texts t n :
  tlength t = 1 -> 100 <= n ->
  dynamicBatchSize 4 [t] = 10 /\ dynamicBatchSize n [t] = 50.
Proof.
  intros Ht Hn. unfold dynamicBatchSize. rewrite (byLength_one t Ht). split.
  - reflexivity.
  - assert (S50 : Nat.sqrt 2500 <= Nat.sqrt (25 * n)) by (apply Nat.sqrt_le_mono; lia).
    replace (Nat.sqrt 2500) with 50 in S50 by reflexivity.
    assert (M : 50 <= Nat.min (Nat.sqrt (25 * n)) 10000) 
      by (apply Nat.min_glb; [lia|apply Nat.leb_le; reflexivity]).
    rewrite (Nat.min_l 50 _ M). reflexivity.
Qed.

Lemma dynamicBatchSize_grows_with_cached_texts_witness :
  dynamicBatchSize 4 [mkTask 0 [97%N] 1] = 10 /\ dynamicBatchSize 100 [mkTask 0 [97%N] 1] = 50.
Proof. apply dynamicBatchSize_grows_with_cached_texts; reflexivity. Defined.

Lemma find_pending_in ps index txt :
  find_pending ps index = Some txt -> In (index, txt) ps.
Proof.
  induction ps as [|[j t] ps IH]; simpl; [discriminate|].
  destruct (Nat.eqb j index) eqn:E.
  - intro H. injection H as <-. apply Nat.eqb_eq in E. subst. left. reflexivity.
  - intro H. right. auto.
Qed.

Lemma remove_pending_incl ps index : incl (remove_pending ps index) ps.
Proof.
  induction ps as [|[j t] ps IH]; simpl; [apply incl_refl|].
  destruct (Nat.eqb j index).
  - intros x Hx. right. exact Hx.
  - apply incl_cons; [left; reflexivity|]. intros x Hx. right. auto.
Qed.

Lemma loop_step_cancelled h sid s :
  isCancelled h = true ->
  loop_step h sid s = put_session h sid (mkSession (subs s) (targetLang s) (wave s) [] true).
Proof. intro H. unfold loop_step. rewrite H, andb_false_r. reflexivity. Qed.

Lemma frame_put_session h h1 sid s1 s' :
  cancel_frame h h1 -> nget (sessions h1) sid = Some s1 ->
  subs s' = subs s1 -> incl (pending s') (pending s1) ->
  cancel_frame h (put_session h1 sid s').
Proof.
  intros (A & B & C & D & E & F & G & K) Hs Hsub Hinc.
  unfold put_session, cancel_frame. cbn [isCancelled progress progressRef isTranslating
    callbacks translationCache sessions heap].
  repeat split; auto.
  intros sid' s2 H2. rewrite nget_map_set in H2. destruct (Nat.eqb sid' sid) eqn:Es.
  - injection H2 as <-. apply Nat.eqb_eq in Es. subst sid'.
    destruct (G _ _ Hs) as (s & H & Hsub' & Hinc').
    exists s. split; [exact H|]. split; [congruence|]. eapply incl_tran; eauto.
  - auto.
Qed.

Lemma frame_set_text h h1 a v :
  cancel_frame h h1 ->
  (exists sid s index, nget (sessions h) sid = Some s /\ In (index, v) (pending s) /\
                       addr_of s index = a) ->
  cancel_frame h (set_text h1 a v).
Proof.
  intros (A & B & C & D & E & F & G & K) (sid & s & index & H1 & H2 & H3).
  unfold set_text, cancel_frame. cbn [isCancelled progress progressRef isTranslating
    callbacks translationCache sessions heap].
  repeat split; auto.
  intro a'. unfold heap_write. destruct (Nat.eqb a' a) eqn:Ea.
  - apply Nat.eqb_eq in Ea. subst a'. right. exists sid, s, index, v. auto.
  - apply K.
Qed.

Lemma frame_step h h1 e h2 :
  cancel_frame h h1 -> not_start e = true -> hook_step h1 e = Some h2 -> cancel_frame h h2.
Proof.
  intros Fr Ne Hs. destruct e as [sid addrs tl|sid index out|sid|]; [discriminate| | |].
  - unfold hook_step in Hs. destruct (nget (sessions h1) sid) as [s1|] eqn:S1;
      [|discriminate].
    destruct (finished s1); [discriminate|].
    destruct (find_pending (pending s1) index) as [txt|] eqn:P; [|discriminate].
    assert (Fr1 : cancel_frame h (put_session h1 sid
               (mkSession (subs s1) (targetLang s1) (wave s1)
                          (remove_pending (pending s1) index) false))).
    { apply (frame_put_session h h1 sid s1); auto. apply remove_pending_incl. }
    destruct out as [v|].
    + replace (isCancelled (put_session h1 sid _)) with true in Hs
        by (symmetry; apply Fr).
      injection Hs as <-. exact Fr1.
    + injection Hs as <-. apply frame_set_text; [exact Fr1|].
      destruct Fr as (_ & _ & _ & _ & _ & _ & G & _).
      destruct (G _ _ S1) as (s & H & Hsub & Hinc).
      exists sid, s, index. split; [exact H|]. split.
      * apply Hinc. apply find_pending_in. exact P.
      * unfold addr_of. rewrite Hsub. reflexivity.
  - unfold hook_step in Hs. destruct (nget (sessions h1) sid) as [s1|] eqn:S1;
      [|discriminate].
    destruct (finished s1); [discriminate|]. destruct (pending s1); [|discriminate].
    injection Hs as <-. rewrite loop_step_cancelled by apply Fr.
    apply (frame_put_session h h1 sid s1); auto. intros x [].
  - injection Hs as <-. destruct Fr as (A & B & C & D & E & F & G & K).
    unfold cancelTranslation, cancel_frame. cbn [isCancelled progress progressRef
      isTranslating callbacks translationCache sessions heap].
    repeat split; auto.
Qed.

(** C4 (the code does not discard the results of a cancelled session once
    another call starts). Session 1 starts on one subtitle (text ["a"]) and
    waits for [translate]; it is cancelled; session 2 starts on the same
    subtitle, which resets the shared [isCancelledRef] and [progressRef] to
    [{0, 1}]; session 1's call then resolves with ["y"]: the check after its
    [await] passes, so its result is written into the subtitle and the
    hook's cache and counted in the progress, and session 1 goes on to call
    [onTranslated]. When session 2's own call then resolves, the progress
    reads [{2, 1}]: [completed] exceeds [total]. *)
Theorem cancelled_session_resumes_after_restart :
  match hook_run (hook0 heap_a)
          [HStart 1 [0] zh; HCancel; HStart 2 [0] zh; HResolve 1 0 (Some (lit "y"));
           HWaveDone 1] with
  | Some h => heap h 0 = lit "y" /\ progress h = (1, 1) /\
              callbacks h = [(1, (1, 1))] /\
              sget (translationCache h) (hookKey (lit "a") zh) = Some (lit "y")
  | None => False
  end /\
  match hook_run (hook0 heap_a)
          [HStart 1 [0] zh; HCancel; HStart 2 [0] zh; HResolve 1 0 (Some (lit "y"));
           HWaveDone 1; HResolve 2 0 (Some (lit "z"))] with
  | Some h => progress h = (2, 1)
  | None => False
  end.
Proof. split; vm_compute; auto. Qed.

(** Extra X13. From [cancelTranslation] on, as long as no new call of
    [translateSubtitles] starts, the progress stays [{0, 0}], no
    [onTranslated] call happens, the hook's cache is unchanged and no
    translated text is written: a subtitle keeps its text, or gets back the
    text one of the awaiting calls was dispatched with (the [catch] of a
    failed call). *)
Theorem cancel_discards_until_restart h es h' :
  forallb not_start es = true -> hook_run h (HCancel :: es) = Some h' -> cancel_frame h h'.
Proof.
  intros Hn Hr. simpl in Hr.
  assert (F0 : cancel_frame h (cancelTranslation h)).
  { unfold cancelTranslation, cancel_frame. cbn [isCancelled progress progressRef
      isTranslating callbacks translationCache sessions heap].
    repeat split; auto.
    intros sid s1 H. exists s1. repeat split; auto. apply incl_refl. }
  revert Hn Hr F0. generalize (cancelTranslation h) as h1.
  induction es as [|e es IH]; simpl; intros h1 Hn Hr F.
  - injection Hr as <-. exact F.
  - apply andb_true_iff in Hn as [He Hn].
    destruct (hook_step h1 e) as [h2|] eqn:S; [|discriminate].
    exact (IH h2 Hn Hr (frame_step h h1 e h2 F He S)).
Qed.

Lemma cancel_discards_until_restart_witness : cancel_frame hook_c4 hook_c4_after.
Proof.
  apply (cancel_discards_until_restart hook_c4 [HResolve 1 0 (Some (lit "y")); HWaveDone 1]);
    vm_compute; reflexivity.
Defined.

(** C5. When the [translate] awaited by item [index] of a running session
    rejects, the [catch] writes back the text the item was dispatched with
    (its source text) and touches nothing else: the other subtitles, the
    progress, the [onTranslated] calls and the cancellation flag stay as they
    were. The session goes on: it keeps its other awaiting items, and once
    none is left its wave completes and the loop continues. *)
Theorem failed_item_keeps_source_text h sid s index txt :
  nget (sessions h) sid = Some s -> finished s = false ->
  find_pending (pending s) index = Some txt ->
  exists h', hook_step h (HResolve sid index None) = Some h' /\
    heap h' (addr_of s index) = txt /\
    (forall a, a <> addr_of s index -> heap h' a = heap h a) /\
    progress h' = progress h /\ progressRef h' = progressRef h /\
    callbacks h' = callbacks h /\ isCancelled h' = isCancelled h /\
    nget (sessions h') sid =
      Some (mkSession (subs s) (targetLang s) (wave s) (remove_pending (pending s) index) false) /\
    (remove_pending (pending s) index = [] -> hook_step h' (HWaveDone sid) <> None).
Proof.
  intros Hs Hf Hp. eexists. split.
  - unfold hook_step. rewrite Hs, Hf, Hp. reflexivity.
  - unfold set_text, put_session, heap_write. cbn [heap progress progressRef callbacks
      isCancelled sessions].
    split; [rewrite Nat.eqb_refl; reflexivity|].
    split; [intros a Ha; apply Nat.eqb_neq in Ha; rewrite Ha; reflexivity|].
    split; [reflexivity|]. split; [reflexivity|]. split; [reflexivity|].
    split; [reflexivity|].
    split; [rewrite nget_map_set, Nat.eqb_refl; reflexivity|].
    intro E. unfold hook_step. cbn [sessions]. rewrite nget_map_set, Nat.eqb_refl.
    cbn [finished pending]. rewrite E. discriminate.
Qed.

(** Session 1 on the texts ["a"] and ["b"]: the first item fails while the
    second still awaits [translate]; the first subtitle keeps ["a"], the
    second item stays awaiting, and once it succeeds the session completes
    and calls [onTranslated]. *)
Lemma failed_item_keeps_source_text_witness :
  (exists h', hook_step hook_c5 (HResolve 1 0 None) = Some h' /\
    heap h' (addr_of sess_c5 0) = lit "a" /\
    (forall a, a <> addr_of sess_c5 0 -> heap h' a = heap hook_c5 a) /\
    progress h' = progress hook_c5 /\ progressRef h' = progressRef hook_c5 /\
    callbacks h' = callbacks hook_c5 /\ isCancelled h' = isCancelled hook_c5 /\
    nget (sessions h') 1 =
      Some (mkSession (subs sess_c5) (targetLang sess_c5) (wave sess_c5)
                      (remove_pending (pending sess_c5) 0) false) /\
    (remove_pending (pending sess_c5) 0 = [] -> hook_step h' (HWaveDone 1) <> None)) /\
  remove_pending (pending sess_c5) 0 = [(1, lit "b")] /\
  match hook_run hook_c5 [HResolve 1 0 None; HResolve 1 1 (Some (lit "y")); HWaveDone 1] with
  | Some h => heap h 0 = lit "a" /\ heap h 1 = lit "y" /\ callbacks h = [(1, (1, 2))]
  | None => False
  end.
Proof.
  split; [|split; vm_compute; auto].
  apply (failed_item_keeps_source_text hook_c5 1 sess_c5 0); vm_compute; reflexivity.
Defined.

Lemma remove_pending_length ps index txt :
  find_pending ps index = Some txt -> S (length (remove_pending ps index)) = length ps.
Proof.
  induction ps as [|[j t] ps IH]; simpl; [discriminate|].
  destruct (Nat.eqb j index); [reflexivity|]. intro H. simpl. rewrite (IH H). reflexivity.
Qed.

Lemma dispatch_count s n : forall idxs h c,
  isCancelled h = false -> progress h = (c, n) -> progressRef h = (c, n) ->
  let '(h1, ps) := dispatch h s idxs in
  isCancelled h1 = false /\ callbacks h1 = callbacks h /\ sessions h1 = sessions h /\
  exists c', progress h1 = (c', n) /\ progressRef h1 = (c', n) /\
             c' + length ps = c + length idxs.
Proof.
  induction idxs as [|index rest IH]; intros h c Hc Hp Hr; simpl.
  - repeat split; auto. exists c. repeat split; auto.
  - unfold translateBatch_start. rewrite Hc.
    destruct (sget (translationCache h) _) as [v|].
    + unfold bump, set_text at 1. cbn [progressRef]. rewrite Hr.
      specialize (IH (bump (set_text h (addr_of s index) v)) (S c)).
      unfold bump, set_text in IH. cbn [progressRef isCancelled progress] in IH.
      rewrite Hr in IH. specialize (IH Hc eq_refl eq_refl).
      destruct (dispatch _ s rest) as [h2 ps].
      destruct IH as (A & B & C & c' & D & E & F). cbn [callbacks sessions] in B, C.
      repeat split; auto. exists c'. repeat split; auto. simpl. lia.
    + specialize (IH h c Hc Hp Hr). destruct (dispatch h s rest) as [h2 ps].
      destruct IH as (A & B & C & c' & D & E & F).
      repeat split; auto. exists c'. repeat split; auto. simpl. lia.
Qed.

Lemma loop_step_inv h0 n sid k h s :
  length (subs s) = n ->
  isCancelled h = false -> callbacks h = callbacks h0 ->
  forall c, progress h = (c, n) -> progressRef h = (c, n) ->
  c + k = Nat.min (wave s) n -> pending s = [] -> finished s = false ->
  session_inv h0 n sid k (loop_step h sid s).
Proof.
  intros Hn Hc Hcb c Hp Hr Hk Hpe Hf. unfold loop_step. rewrite Hc, Hn.
  destruct (wave s <? n) eqn:W; cbn [andb negb].
  - apply Nat.ltb_lt in W.
    pose proof (dispatch_count s n (seq (wave s) (Nat.min 5 (n - wave s))) h c Hc Hp Hr)
      as D.
    destruct (dispatch h s _) as [h1 ps].
    destruct D as (A & B & C & c' & D & E & F).
    exists (mkSession (subs s) (targetLang s) (wave s) ps false).
    unfold put_session. cbn [sessions subs finished isCancelled callbacks progress
      progressRef wave pending].
    split; [rewrite nget_map_set, Nat.eqb_refl; reflexivity|]. split; [exact Hn|].
    left. repeat split; auto; [congruence|].
    exists c'. repeat split; auto. rewrite length_seq in F. lia.
  - apply Nat.ltb_ge in W.
    exists (mkSession (subs s) (targetLang s) (wave s) [] true).
    unfold put_session. cbn [sessions subs finished callbacks].
    split; [rewrite nget_map_set, Nat.eqb_refl; reflexivity|]. split; [exact Hn|].
    right. split; [reflexivity|]. exists c. rewrite Hp, Hcb. split; [reflexivity|]. lia.
Qed.

Lemma session_step_inv h0 n sid k h e h' :
  session_inv h0 n sid k h -> session_event sid e = true -> hook_step h e = Some h' ->
  session_inv h0 n sid (k + if is_failure e then 1 else 0) h'.
Proof.
  intros (s & Hs & Hn & I) He Hst.
  destruct e as [sid' addrs tl|sid' index out|sid'|]; try discriminate;
    cbn [session_event] in He; apply Nat.eqb_eq in He; subst sid'.
  - unfold hook_step in Hst. rewrite Hs in Hst.
    destruct I as [(Hf & Hc & Hcb & Hw & c & Hp & Hr & Hk)|(Hf & _)];
      rewrite Hf in Hst; [|discriminate].
    destruct (find_pending (pending s) index) as [txt|] eqn:P; [|discriminate].
    pose proof (remove_pending_length _ _ _ P) as L.
    set (s' := mkSession (subs s) (targetLang s) (wave s)
                         (remove_pending (pending s) index) false) in Hst.
    assert (Hs' : forall h1, sessions h1 = map_set Nat.eqb (sessions h) sid s' ->
                             nget (sessions h1) sid = Some s').
    { intros h1 E. rewrite E, nget_map_set, Nat.eqb_refl. reflexivity. }
    destruct out as [v|]; cbn [is_failure].
    + replace (isCancelled (put_session h sid s')) with false in Hst by (symmetry; exact Hc).
      injection Hst as <-. exists s'. split.
      { apply Hs'. unfold bump, cache_put, set_text, put_session. cbn [progressRef].
        rewrite Hr. reflexivity. }
      split; [exact Hn|]. left.
      unfold bump, cache_put, set_text, put_session.
      cbn [progressRef isCancelled callbacks progress finished wave pending].
      rewrite Hr. repeat split; auto. exists (S c). repeat split; auto.
      unfold s'. cbn [pending wave]. lia.
    + injection Hst as <-. exists s'. split; [apply Hs'; reflexivity|].
      split; [exact Hn|]. left.
      unfold set_text, put_session.
      cbn [progressRef isCancelled callbacks progress finished wave pending].
      repeat split; auto. exists c. repeat split; auto. unfold s'. cbn [pending wave]. lia.
  - unfold hook_step in Hst. rewrite Hs in Hst. cbn [is_failure]. rewrite Nat.add_0_r.
    destruct I as [(Hf & Hc & Hcb & Hw & c & Hp & Hr & Hk)|(Hf & _)];
      rewrite Hf in Hst; [|discriminate].
    destruct (pending s) eqn:Pe; [|discriminate]. injection Hst as <-.
    apply (loop_step_inv h0 n sid k h
             (mkSession (subs s) (targetLang s) (wave s + 5) [] false) Hn Hc Hcb c Hp Hr);
      try reflexivity.
    cbn [wave]. simpl in Hk. lia.
Qed.

Lemma session_run_inv h0 n sid : forall es h k h',
  session_inv h0 n sid k h -> forallb (session_event sid) es = true ->
  hook_run h es = Some h' -> session_inv h0 n sid (k + count_failed es) h'.
Proof.
  induction es as [|e es IH]; simpl; intros h k h' I Hes Hr.
  - injection Hr as <-. unfold count_failed. simpl. rewrite Nat.add_0_r. exact I.
  - apply andb_true_iff in Hes as [He Hes].
    destruct (hook_step h e) as [h1|] eqn:S; [|discriminate].
    pose proof (IH h1 _ h' (session_step_inv h0 n sid k h e h1 I He S) Hes Hr) as J.
    unfold count_failed in *. simpl. destruct (is_failure e); simpl in *;
      [rewrite <- Nat.add_assoc in J; exact J|rewrite Nat.add_0_r in J; exact J].
Qed.

(** C9. Take a session started on a non-empty array whose later events are
    only its own items settling and its own waves ending. If it runs to its
    end, it makes its [onTranslated] call with progress [completed] of
    [total] where [completed + k = total], [k] being the number of failed
    items; so [completed < total] as soon as one item failed. *)
Theorem failed_records_not_counted h0 sid addrs tl es h :
  nget (sessions h0) sid = None -> addrs <> [] ->
  forallb (session_event sid) es = true ->
  hook_run h0 (HStart sid addrs tl :: es) = Some h ->
  (exists s, nget (sessions h) sid = Some s /\ finished s = true) ->
  exists c, callbacks h = (sid, (c, length addrs)) :: callbacks h0 /\
            c + count_failed es = length addrs /\
            (0 < count_failed es -> c < length addrs).
Proof.
  intros Hfresh Hne Hes Hr (s & Hs & Hf). simpl in Hr. rewrite Hfresh in Hr.
  destruct addrs as [|a0 rest] eqn:Ea; [contradiction|]. rewrite <- Ea in *.
  set (h1 := mkHook (heap h0) true (0, length addrs) false (0, length addrs)
                    (translationCache h0) (callbacks h0) (sessions h0)) in Hr.
  assert (I0 : session_inv h0 (length addrs) sid 0
                 (loop_step h1 sid (mkSession addrs tl 0 [] false))).
  { apply (loop_step_inv h0 (length addrs) sid 0 h1 (mkSession addrs tl 0 [] false)
             eq_refl eq_refl eq_refl 0 eq_refl eq_refl); reflexivity. }
  destruct (session_run_inv h0 (length addrs) sid es _ 0 h I0 Hes Hr)
    as (s' & Hs' & _ & [(Hf' & _)|(_ & c & Hc & Hk)]).
  - rewrite Hs in Hs'. injection Hs' as <-. congruence.
  - exists c. split; [exact Hc|]. split; [lia|]. lia.
Qed.

Lemma failed_records_not_counted_witness :
  exists c, callbacks hook_c9 = (1, (c, length [0; 1])) :: callbacks (hook0 heap_a) /\
            c + count_failed c9_events = length [0; 1] /\
            (0 < count_failed c9_events -> c < length [0; 1]).
Proof.
  apply (failed_records_not_counted (hook0 heap_a) 1 [0; 1] zh c9_events hook_c9);
    try (vm_compute; reflexivity).
  - discriminate.
  - exists (mkSession [0; 1] zh 5 [] true). split; vm_compute; reflexivity.
Defined.

(** After 1000 [set]s and a [get] of the first key, the [set] of a new key
    evicts the second key and keeps the first. *)
Lemma lru_cache_bounded_and_lru_witness :
  (lru_size (fst (run_ops defaultLRU ops_c3)) <= 1000 /\
   exists victim, In victim (map fst (cache (fst (run_ops defaultLRU ops_c3)))) /\
     sget (cache (lru_set (fst (run_ops defaultLRU ops_c3)) ja zh (tx 1000) (lit "t")))
          victim = None) /\
  snd (lru_get (lru_set (fst (run_ops defaultLRU ops_c3)) ja zh (tx 1000) (lit "t"))
               ja zh (tx 1)) = None /\
  snd (lru_get (lru_set (fst (run_ops defaultLRU ops_c3)) ja zh (tx 1000) (lit "t"))
               ja zh (tx 0)) = Some (lit "t").
Proof.
  split; [|split; vm_compute; reflexivity].
  pose proof (lru_cache_bounded_and_lru ops_c3 ltac:(vm_compute; reflexivity)) as H.
  cbv zeta in H. set (c := fst (run_ops defaultLRU ops_c3)) in *.
  destruct H as [Hb H]. split; [exact Hb|].
  destruct (H ja zh (tx 1000) (lit "t")) as (v & A & _ & C & _ & _).
  - intro Hin. apply shas_in in Hin. revert Hin. unfold c. vm_compute. discriminate.
  - unfold c. vm_compute. reflexivity.
  - exists v. split; assumption.
Defined.

(* ------------------------------------------------------------------ *)
(** ** The queue's bookkeeping *)

Lemma drain_spec fuel : forall s,
  length (translationQueue s) <= fuel ->
  activeTranslations s = length (running s) ->
  activeTranslations (drain fuel s) = length (running (drain fuel s)) /\
  (translationQueue (drain fuel s) = [] \/
   lt_num (activeTranslations (drain fuel s)) (maxConcurrent (drain fuel s)) = false) /\
  (exists moved, translationQueue s = moved ++ translationQueue (drain fuel s) /\
                 running (drain fuel s) = running s ++ moved).
Proof.
  induction fuel as [|f IH]; intros s Hl Ha; simpl.
  - destruct (translationQueue s) eqn:Q; simpl in Hl; [|lia].
    split; [exact Ha|]. split; [left; rewrite ?Q; reflexivity|]. exists []. split; [rewrite ?Q; reflexivity|symmetry; apply app_nil_r].
  - destruct (translationQueue s) as [|[p o] q] eqn:Q.
    + split; [exact Ha|]. split; [left; rewrite ?Q; reflexivity|]. exists [].
      split; [rewrite ?Q; reflexivity|symmetry; apply app_nil_r].
    + destruct (lt_num (activeTranslations s) (maxConcurrent s)) eqn:L.
      * set (s1 := mkSvc (resultCache s) (promiseCache s) q (running s ++ [(p, o)])
                     (S (activeTranslations s)) (maxConcurrent s) (isProcessing s)
                     (settled s) (nextPromise s)).
        assert (H1 : length (translationQueue s1) <= f) by (simpl; simpl in Hl; lia).
        assert (H2 : activeTranslations s1 = length (running s1))
          by (simpl; rewrite length_app, Ha; simpl; lia).
        destruct (IH s1 H1 H2) as (A & B & moved & C & D).
        split; [exact A|]. split; [exact B|]. exists ((p, o) :: moved).
        simpl in C, D. rewrite C, D, <- app_assoc. auto.
      * split; [exact Ha|]. split; [right; exact L|].
        exists []. rewrite Q. split; [reflexivity|symmetry; apply app_nil_r].
Qed.

Lemma processQueueIterative_qinv s :
  activeTranslations s = length (running s) -> limit_ok (maxConcurrent s) ->
  maxSize (resultCache s) = 1000 -> (exists acc, lru_inv (resultCache s) acc) ->
  queue_inv (processQueueIterative s).
Proof.
  intros Ha Hm Hc Hi. unfold processQueueIterative.
  destruct (drain_spec (length (translationQueue s)) s (le_n _) Ha) as (A & _ & _).
  destruct (drain_items (length (translationQueue s)) s) as (H1 & _ & _ & _ & H5 & _).
  set (s' := drain _ s) in *.
  constructor; unfold items; cbn [activeTranslations running maxConcurrent isProcessing
                                 translationQueue resultCache].
  - exact A.
  - rewrite H5. exact Hm.
  - rewrite A. destruct (translationQueue s') as [|x q], (running s') as [|y r]; simpl;
      split; intro H; try reflexivity; try discriminate.
    exfalso. apply H. reflexivity.
  - rewrite H1. exact Hc.
  - rewrite H1. exact Hi.
Qed.

Lemma lru_get_maxSize c sl tl tx : maxSize (fst (lru_get c sl tl tx)) = maxSize c.
Proof. unfold lru_get. destruct (truthy_opt _); reflexivity. Qed.

Lemma lru_set_maxSize c sl tl tx v : maxSize (lru_set c sl tl tx v) = maxSize c.
Proof. unfold lru_set. destruct (if shas _ _ then _ else _). reflexivity. Qed.

Lemma queue_inv_set_resultCache s rc :
  queue_inv s -> maxSize rc = 1000 -> (exists acc, lru_inv rc acc) ->
  queue_inv (set_resultCache s rc).
Proof. intros [A B C _ _] E F. constructor; assumption. Qed.

Lemma enqueue_qinv s pc x st np :
  queue_inv s ->
  queue_inv (startProcessingQueue
    (mkSvc (resultCache s) pc (translationQueue s ++ [x]) (running s)
           (activeTranslations s) (maxConcurrent s) (isProcessing s) st np)).
Proof.
  intros I. pose proof I as [A B C E F]. unfold startProcessingQueue.
  cbn [isProcessing]. destruct (isProcessing s) eqn:P.
  - constructor; unfold items; cbn [activeTranslations running maxConcurrent isProcessing
                                   translationQueue resultCache]; auto.
    split; [|reflexivity]. intros _ N. apply app_eq_nil in N as [N _].
    apply app_eq_nil in N as [_ N]. discriminate.
  - apply processQueueIterative_qinv; cbn; assumption.
Qed.

Lemma translate_start_qinv s o : queue_inv s -> queue_inv (fst (translate_start s o)).
Proof.
  intros I. unfold translate_start.
  destruct (unsupported _ _); [exact I|]. destruct (negb _); [exact I|].
  pose proof (lru_get_maxSize (resultCache s) (sourceLanguage o) (targetLanguage o)
                              (text o)) as M.
  pose proof (qi_cache_inv s I) as [acc Ha].
  pose proof (lru_get_inv _ acc (sourceLanguage o) (targetLanguage o) (text o) Ha) as G.
  destruct (lru_get _ _ _ _) as [rc v]. cbn [fst] in M.
  assert (J : queue_inv (set_resultCache s rc)).
  { apply queue_inv_set_resultCache; [exact I| rewrite M; apply (qi_cache_max s I)|eauto]. }
  destruct (truthy_opt v); [exact J|].
  destruct (sget _ _); [exact J|]. apply (enqueue_qinv _ _ _ _ _ J).
Qed.

Lemma translate_finish_qinv s o out : queue_inv s -> queue_inv (translate_finish s o out).
Proof.
  intros I. pose proof I as [A B C E [acc F]]. unfold translate_finish.
  destruct out as [v|]; constructor; auto; cbn [resultCache].
  - rewrite lru_set_maxSize. exact E.
  - eexists. apply lru_set_inv; [rewrite E; lia|exact F].
  - eauto.
Qed.

Lemma filter_one_length l p o :
  NoDup (map fst l) -> In (p, o) l ->
  length (filter (fun po : nat * TranslationOptions => negb (Nat.eqb (fst po) p)) l) =
  length l - 1.
Proof.
  induction l as [|[q o'] l IH]; simpl; [contradiction|]. intros N [E|Hi].
  - injection E as -> ->. rewrite Nat.eqb_refl. simpl.
    inversion N as [|? ? Hn _]; subst.
    rewrite (forallb_filter_id _ l); [lia|].
    apply forallb_forall. intros [q o'] Hq. apply negb_true_iff, Nat.eqb_neq.
    simpl. intros ->. apply Hn. apply (in_map fst _ (p, o')). exact Hq.
  - inversion N as [|? ? Hn Hd]; subst. destruct (Nat.eqb q p) eqn:E.
    + apply Nat.eqb_eq in E. subst. exfalso. apply Hn. apply (in_map fst _ (p, o)). exact Hi.
    + simpl. rewrite (IH Hd Hi). destruct l; [contradiction|]. simpl. lia.
Qed.

Lemma settle_task_qinv s p o out :
  queue_inv s -> NoDup (map fst (running s)) -> In (p, o) (running s) ->
  queue_inv (settle_task s p out).
Proof.
  intros [A B C E F] N Hi. unfold settle_task.
  apply processQueueIterative_qinv; cbn [activeTranslations running maxConcurrent
                                        resultCache]; auto.
  rewrite (filter_one_length _ _ _ N Hi), A. reflexivity.
Qed.

(** [Math.max(1, Math.min(50, x))] is [NaN] exactly when [x] is, and lies
    in [1, 50] otherwise. *)
Lemma clamp_spec x :
  (x = NaN -> Math_max (num_of_nat 1) (Math_min (num_of_nat 50) x) = NaN) /\
  (x <> NaN -> exists q, Math_max (num_of_nat 1) (Math_min (num_of_nat 50) x) = Fin q /\
                         (1 <= q /\ q <= 50)%Q).
Proof.
  split; [intros ->; reflexivity|]. intros Hx.
  destruct x as [|q| |]; [contradiction| | |].
  - unfold Math_min, Math_max, num_of_nat.
    destruct (Qle_bool (inject_Z (Z.of_nat 50)) q) eqn:E1.
    + apply Qle_bool_iff in E1. cbn. eexists. split; [reflexivity|].
      unfold Qle; simpl; lia.
    + assert (N1 : ~ (inject_Z (Z.of_nat 50) <= q)%Q)
        by (intro H; apply Qle_bool_iff in H; congruence).
      destruct (Qle_bool (inject_Z (Z.of_nat 1)) q) eqn:E2.
      * apply Qle_bool_iff in E2. eexists. split; [reflexivity|].
        unfold Qle in *; simpl in *; lia.
      * assert (N2 : ~ (inject_Z (Z.of_nat 1) <= q)%Q)
          by (intro H; apply Qle_bool_iff in H; congruence).
        eexists. split; [reflexivity|]. unfold Qle in *; simpl in *; lia.
  - eexists. split; [reflexivity|]. unfold Qle; simpl; lia.
  - eexists. split; [reflexivity|]. unfold Qle; simpl; lia.
Qed.

Lemma clamp_ok x : limit_ok (Math_max (num_of_nat 1) (Math_min (num_of_nat 50) x)).
Proof.
  destruct (clamp_spec x) as [H1 H2]. destruct x as [|q| |].
  - left. apply H1. reflexivity.
  - right. apply H2. discriminate.
  - right. apply H2. discriminate.
  - right. apply H2. discriminate.
Qed.

Lemma setMaxConcurrent_qinv s n : queue_inv s -> queue_inv (setMaxConcurrent s n).
Proof.
  intros I. pose proof I as [A B C E F]. unfold setMaxConcurrent, startProcessingQueue.
  cbn [isProcessing]. destruct (isProcessing s) eqn:P.
  - constructor; unfold items; cbn [activeTranslations running maxConcurrent isProcessing
                                   translationQueue resultCache]; auto; apply clamp_ok.
  - apply processQueueIterative_qinv;
      cbn [activeTranslations running maxConcurrent resultCache]; auto.
    apply clamp_ok.
Qed.

Lemma clearCache_qinv s : queue_inv s -> queue_inv (clearCache s).
Proof.
  intros I. unfold clearCache. apply queue_inv_set_resultCache; [exact I| |].
  - apply (qi_cache_max s I).
  - exists []. apply lru_clear_inv.
Qed.

Lemma svc0_qinv : queue_inv svc0.
Proof.
  constructor; cbn.
  - reflexivity.
  - right. eexists. split; [reflexivity|]. unfold Qle; simpl; lia.
  - split; [discriminate|]. intro H. exfalso. apply H. reflexivity.
  - reflexivity.
  - exists []. apply newLRU_inv.
Qed.

Lemma step_qinv w e w' :
  svc_inv (svc w) (callers w) -> queue_inv (svc w) -> step w e = Some w' ->
  queue_inv (svc w').
Proof.
  intros I Q. destruct w as [s cs]. cbn [svc callers] in *.
  destruct e as [t o|p rs|t| |n]; simpl.
  - destruct (nget cs t) eqn:Ht; [discriminate|].
    pose proof (translate_start_qinv s o Q) as J.
    destruct (translate_start s o). intro H. injection H as <-. exact J.
  - destruct (nget (running s) p) as [o|] eqn:Hp; [|discriminate].
    intro H. injection H as <-. simpl. apply nget_in in Hp.
    apply (settle_task_qinv s p o); [exact Q| |exact Hp].
    pose proof (si_items_nodup _ _ I) as N. unfold items in N. rewrite map_app in N.
    apply NoDup_app_inv in N as (_ & N & _). exact N.
  - destruct (nget cs t) as [[r|p o|p]|] eqn:Ht; try discriminate.
    + destruct (nget (settled s) p) eqn:Hs; [|discriminate].
      intro H. injection H as <-. simpl. apply translate_finish_qinv. exact Q.
    + destruct (nget (settled s) p) eqn:Hs; [|discriminate].
      destruct (pc_refers_to _ _); [discriminate|].
      intro H. injection H as <-. exact Q.
  - intro H. injection H as <-. apply clearCache_qinv. exact Q.
  - intro H. injection H as <-. apply setMaxConcurrent_qinv. exact Q.
Qed.

Lemma reachable_qinv w : reachable w -> queue_inv (svc w).
Proof.
  induction 1 as [|w e w' R IH Hs].
  - apply svc0_qinv.
  - exact (step_qinv w e w' (reachable_inv w R) IH Hs).
Qed.

Lemma items_nil s : items s = [] -> translationQueue s = [] /\ running s = [].
Proof. unfold items. apply app_eq_nil. Qed.

Lemma processing_false_idle s :
  queue_inv s -> isProcessing s = false -> items s = [].
Proof.
  intros [_ _ C _ _] P. destruct (items s) eqn:Ei; [reflexivity|]. exfalso.
  assert (false = true) by (rewrite <- P; apply C; discriminate). discriminate.
Qed.

Lemma w_nan_queued_reachable : reachable w_nan_queued.
Proof.
  apply (run_reachable world0 [ESetMax NaN; ECall 0 opts_a]); [constructor|].
  vm_compute. reflexivity.
Qed.


(** Extra X1: in every reachable state of the service, [getQueueStatus()]
    is consistent: [active] is the number of running tasks, [maxConcurrent]
    is [NaN] or lies in [1, 50], and [isProcessing] holds exactly when some
    request is queued or running. *)
Theorem queue_status_consistent w :
  reachable w ->
  active (getQueueStatus (svc w)) = length (running (svc w)) /\
  limit_ok (status_maxConcurrent (getQueueStatus (svc w))) /\
  (status_isProcessing (getQueueStatus (svc w)) = true <->
     0 < queued (getQueueStatus (svc w)) \/ 0 < active (getQueueStatus (svc w))).
Proof.
  intro R. destruct (reachable_qinv w R) as [A B C _ _]. unfold getQueueStatus.
  cbn [active status_maxConcurrent status_isProcessing queued].
  rewrite A. split; [reflexivity|]. split; [exact B|].
  rewrite C. unfold items.
  destruct (translationQueue (svc w)), (running (svc w)); simpl;
    split; intro H; try (left; lia); try (right; lia); try discriminate.
  - exfalso. apply H. reflexivity.
  - lia.
Qed.

(** After [setMaxConcurrent(NaN)] and one call, a request is queued while
    none runs. *)
Lemma queue_status_consistent_witness :
  queued (getQueueStatus (svc w_nan_queued)) = 1 /\
  active (getQueueStatus (svc w_nan_queued)) = 0 /\
  (active (getQueueStatus (svc w_nan_queued)) = length (running (svc w_nan_queued)) /\
   limit_ok (status_maxConcurrent (getQueueStatus (svc w_nan_queued))) /\
   (status_isProcessing (getQueueStatus (svc w_nan_queued)) = true <->
      0 < queued (getQueueStatus (svc w_nan_queued)) \/
      0 < active (getQueueStatus (svc w_nan_queued)))).
Proof.
  split; [vm_compute; reflexivity|]. split; [vm_compute; reflexivity|].
  apply (queue_status_consistent w_nan_queued). apply w_nan_queued_reachable.
Defined.

(** Extra X2: in every reachable state, [getCacheStats().size] never exceeds
    [getCacheStats().maxSize] (1000). *)
Theorem cache_stats_bounded w :
  reachable w ->
  stats_size (getCacheStats (svc w)) <= stats_maxSize (getCacheStats (svc w)).
Proof.
  intro R. destruct (reachable_qinv w R) as [_ _ _ E [acc F]].
  unfold getCacheStats. cbn [stats_size stats_maxSize].
  rewrite (lru_size_keys _ _ F), <- E. apply (inv_bound _ _ F).
Qed.

Lemma cache_stats_bounded_witness :
  stats_size (getCacheStats (svc w_one_pending)) <=
  stats_maxSize (getCacheStats (svc w_one_pending)).
Proof. apply (cache_stats_bounded w_one_pending). apply w_one_pending_reachable. Defined.

(** Extra X3: in every reachable state, [setMaxConcurrent(x)] sets the
    limit to [Math.max(1, Math.min(50, x))], which is [NaN] when [x] is and
    a number in [1, 50] otherwise, and starts no queued request, whatever
    [x]: the queue, the running tasks, [activeTranslations] and
    [isProcessing] are unchanged. *)
Theorem setMaxConcurrent_starts_nothing w x :
  reachable w ->
  maxConcurrent (setMaxConcurrent (svc w) x) =
    Math_max (num_of_nat 1) (Math_min (num_of_nat 50) x) /\
  (x = NaN -> maxConcurrent (setMaxConcurrent (svc w) x) = NaN) /\
  (x <> NaN -> exists q, maxConcurrent (setMaxConcurrent (svc w) x) = Fin q /\
                         (1 <= q /\ q <= 50)%Q) /\
  translationQueue (setMaxConcurrent (svc w) x) = translationQueue (svc w) /\
  running (setMaxConcurrent (svc w) x) = running (svc w) /\
  activeTranslations (setMaxConcurrent (svc w) x) = activeTranslations (svc w) /\
  isProcessing (setMaxConcurrent (svc w) x) = isProcessing (svc w).
Proof.
  intro R. pose proof (reachable_qinv w R) as I. revert I. generalize (svc w) as s.
  intros s I.
  assert (M : maxConcurrent (setMaxConcurrent s x) =
                Math_max (num_of_nat 1) (Math_min (num_of_nat 50) x) /\
              translationQueue (setMaxConcurrent s x) = translationQueue s /\
              running (setMaxConcurrent s x) = running s /\
              activeTranslations (setMaxConcurrent s x) = activeTranslations s /\
              isProcessing (setMaxConcurrent s x) = isProcessing s).
  { unfold setMaxConcurrent, startProcessingQueue.
    cbn [isProcessing]. destruct (isProcessing s) eqn:P.
    - cbn [maxConcurrent translationQueue running activeTranslations isProcessing].
      auto.
    - destruct (items_nil s (processing_false_idle s I P)) as [Q Rn].
      pose proof (qi_active s I) as A. rewrite Rn in A.
      unfold processQueueIterative. cbn [translationQueue]. rewrite Q. simpl.
      rewrite ?Q, ?Rn, ?A. auto. }
  destruct M as (M & Q & Rn & Ac & P). rewrite M.
  destruct (clamp_spec x) as [H1 H2]. auto 7.
Qed.

(** With [NaN] as the limit and a request queued, [setMaxConcurrent(5)]
    leaves it queued. *)
Lemma setMaxConcurrent_starts_nothing_witness :
  translationQueue (setMaxConcurrent (svc w_nan_queued) (num_of_nat 5)) = [(0, opts_a)] /\
  (maxConcurrent (setMaxConcurrent (svc w_nan_queued) (num_of_nat 5)) =
     Math_max (num_of_nat 1) (Math_min (num_of_nat 50) (num_of_nat 5)) /\
   (num_of_nat 5 = NaN ->
      maxConcurrent (setMaxConcurrent (svc w_nan_queued) (num_of_nat 5)) = NaN) /\
   (num_of_nat 5 <> NaN ->
      exists q, maxConcurrent (setMaxConcurrent (svc w_nan_queued) (num_of_nat 5)) = Fin q /\
                (1 <= q /\ q <= 50)%Q) /\
   translationQueue (setMaxConcurrent (svc w_nan_queued) (num_of_nat 5)) =
     translationQueue (svc w_nan_queued) /\
   running (setMaxConcurrent (svc w_nan_queued) (num_of_nat 5)) = running (svc w_nan_queued) /\
   activeTranslations (setMaxConcurrent (svc w_nan_queued) (num_of_nat 5)) =
     activeTranslations (svc w_nan_queued) /\
   isProcessing (setMaxConcurrent (svc w_nan_queued) (num_of_nat 5)) =
     isProcessing (svc w_nan_queued)).
Proof.
  split; [vm_compute; reflexivity|].
  apply (setMaxConcurrent_starts_nothing w_nan_queued (num_of_nat 5)).
  apply w_nan_queued_reachable.
Defined.

(** Extra X4: in every reachable state, a call of [translate] that creates a
    new request starts it at once only when the service is idle and the
    limit is not [NaN]; with [NaN] as the limit it stays queued; when some
    request is already queued or running, the new one is appended to the
    queue and no task is started, even below [maxConcurrent]. *)
Theorem new_request_starts_only_when_idle w o s' p :
  reachable w -> translate_start (svc w) o = (s', COwner p o) ->
  (items (svc w) = [] -> maxConcurrent (svc w) <> NaN ->
     running s' = [(p, o)] /\ translationQueue s' = []) /\
  (items (svc w) = [] -> maxConcurrent (svc w) = NaN ->
     running s' = [] /\ translationQueue s' = [(p, o)]) /\
  (items (svc w) <> [] ->
     running s' = running (svc w) /\
     translationQueue s' = translationQueue (svc w) ++ [(p, o)]).
Proof.
  intros R. pose proof (reachable_qinv w R) as I. revert I. generalize (svc w) as s.
  intros s I H. pose proof I as [A B C _ _]. unfold translate_start in H.
  destruct (unsupported _ _); [discriminate|]. destruct (negb _); [discriminate|].
  destruct (lru_get _ _ _ _) as [rc v]. destruct (truthy_opt v); [discriminate|].
  destruct (sget _ _); [discriminate|]. injection H as <- <-.
  unfold startProcessingQueue, set_resultCache. cbn [isProcessing].
  destruct (isProcessing s) eqn:P.
  - split; [|split].
    + intro Hi. exfalso. apply (proj1 C eq_refl). exact Hi.
    + intro Hi. exfalso. apply (proj1 C eq_refl). exact Hi.
    + intros _. split; reflexivity.
  - pose proof (processing_false_idle s I P) as Hi.
    split; [|split; [|intro N; contradiction]]; intros _;
      destruct (items_nil s Hi) as [Q Rn];
      unfold processQueueIterative; cbn [translationQueue running activeTranslations
                                         maxConcurrent];
      rewrite Q, Rn, A, Rn; cbn [app length drain translationQueue activeTranslations
                                 maxConcurrent running].
    + intro N. destruct B as [B|(q & Eq & H1 & _)]; [contradiction|]. rewrite Eq.
      assert (L : lt_num 0 (Fin q) = true).
      { cbn [lt_num]. destruct (Qle_bool q (inject_Z (Z.of_nat 0))) eqn:E; [|reflexivity].
        apply Qle_bool_iff in E. unfold Qle in *; simpl in *; lia. }
      rewrite L. split; reflexivity.
    + intro N. rewrite N. split; reflexivity.
Qed.

(** With ["a"] running and a limit of 40, a new request on ["b"] is queued. *)
Lemma new_request_starts_only_when_idle_witness :
  items (svc w_one_pending) <> [] /\
  ((items (svc w_one_pending) = [] -> maxConcurrent (svc w_one_pending) <> NaN ->
      running (fst (translate_start (svc w_one_pending) opts_b)) = [(1, opts_b)] /\
      translationQueue (fst (translate_start (svc w_one_pending) opts_b)) = []) /\
   (items (svc w_one_pending) = [] -> maxConcurrent (svc w_one_pending) = NaN ->
      running (fst (translate_start (svc w_one_pending) opts_b)) = [] /\
      translationQueue (fst (translate_start (svc w_one_pending) opts_b)) = [(1, opts_b)]) /\
   (items (svc w_one_pending) <> [] ->
      running (fst (translate_start (svc w_one_pending) opts_b)) =
        running (svc w_one_pending) /\
      translationQueue (fst (translate_start (svc w_one_pending) opts_b)) =
        translationQueue (svc w_one_pending) ++ [(1, opts_b)])).
Proof.
  split; [vm_compute; discriminate|].
  apply (new_request_starts_only_when_idle w_one_pending opts_b
           (fst (translate_start (svc w_one_pending) opts_b)) 1).
  - apply w_one_pending_reachable.
  - vm_compute. reflexivity.
Defined.



(** Extra X6: [clearCache()] empties the result cache but keeps the pending
    requests; afterwards a [translate] call that passes the checks at its
    top misses the result cache, so it attaches to the pending request for
    its key if there is one, and otherwise queues a new request. *)
Theorem clearCache_keeps_pending s o :
  admitted o ->
  stats_size (getCacheStats (clearCache s)) = 0 /\
  promiseCache (clearCache s) = promiseCache s /\
  translationQueue (clearCache s) = translationQueue s /\
  running (clearCache s) = running s /\
  snd (translate_start (clearCache s) o) =
    match sget (promiseCache s) (optKey o) with
    | Some p => CAttached p
    | None => COwner (nextPromise s) o
    end.
Proof.
  intros [U T]. split; [reflexivity|]. split; [reflexivity|].
  split; [reflexivity|]. split; [reflexivity|].
  unfold translate_start. rewrite U, T. cbn [negb].
  unfold clearCache, lru_clear, set_resultCache, lru_get. cbn [cache resultCache].
  change (sget [] (getKey (sourceLanguage o) (targetLanguage o) (text o)))
    with (@None jsstr). cbn [truthy_opt promiseCache nextPromise]. fold (optKey o).
  destruct (sget (promiseCache s) (optKey o)); reflexivity.
Qed.

Lemma clearCache_keeps_pending_witness :
  stats_size (getCacheStats (clearCache (svc w_one_pending))) = 0 /\
  promiseCache (clearCache (svc w_one_pending)) = promiseCache (svc w_one_pending) /\
  translationQueue (clearCache (svc w_one_pending)) = translationQueue (svc w_one_pending) /\
  running (clearCache (svc w_one_pending)) = running (svc w_one_pending) /\
  snd (translate_start (clearCache (svc w_one_pending)) opts_a) =
    match sget (promiseCache (svc w_one_pending)) (optKey opts_a) with
    | Some p => CAttached p
    | None => COwner (nextPromise (svc w_one_pending)) opts_a
    end.
Proof.
  apply (clearCache_keeps_pending (svc w_one_pending) opts_a).
  split; vm_compute; reflexivity.
Defined.

(* ------------------------------------------------------------------ *)
(** ** [executeTranslationTask] and [translateWithGoogleAPI] *)

(** Extra X7: [executeTranslationTask] makes at most [maxAttempts + 1 = 4]
    attempts: responses after the fourth are never used; it resolves with
    the value of the first successful attempt among the first four, and
    rejects exactly when all four attempts fail. *)
Theorem executeTranslationTask_four_attempts o rs rest :
  length rs = 4 ->
  executeTranslationTask o (rs ++ rest) = executeTranslationTask o rs /\
  (executeTranslationTask o rs = None <->
     forall r, In r rs -> translateWithGoogleAPI o r = None) /\
  (forall v, executeTranslationTask o rs = Some v ->
     exists i, i < 4 /\ translateWithGoogleAPI o (nth i rs RespFail) = Some v /\
       forall j, j < i -> translateWithGoogleAPI o (nth j rs RespFail) = None).
Proof.
  intro L. destruct rs as [|r1 [|r2 [|r3 [|r4 [|r5 rs]]]]]; try discriminate L.
  unfold executeTranslationTask, maxAttempts. simpl.
  destruct (translateWithGoogleAPI o r1) as [v1|] eqn:E1.
  { split; [reflexivity|]. split.
    - split; [discriminate|]. intro H. rewrite (H r1) in E1; [discriminate|left; reflexivity].
    - intros v Hv. injection Hv as <-. exists 0. split; [lia|]. split; [exact E1|].
      intros j Hj. lia. }
  destruct (translateWithGoogleAPI o r2) as [v2|] eqn:E2.
  { split; [reflexivity|]. split.
    - split; [discriminate|]. intro H. rewrite (H r2) in E2; [discriminate|simpl; auto].
    - intros v Hv. injection Hv as <-. exists 1. split; [lia|]. split; [exact E2|].
      intros j Hj. destruct j; [exact E1|lia]. }
  destruct (translateWithGoogleAPI o r3) as [v3|] eqn:E3.
  { split; [reflexivity|]. split.
    - split; [discriminate|]. intro H. rewrite (H r3) in E3; [discriminate|simpl; auto].
    - intros v Hv. injection Hv as <-. exists 2. split; [lia|]. split; [exact E3|].
      intros j Hj. destruct j as [|[|j]]; [exact E1|exact E2|lia]. }
  destruct (translateWithGoogleAPI o r4) as [v4|] eqn:E4.
  { split; [reflexivity|]. split.
    - split; [discriminate|]. intro H. rewrite (H r4) in E4; [discriminate|simpl; auto].
    - intros v Hv. injection Hv as <-. exists 3. split; [lia|]. split; [exact E4|].
      intros j Hj. destruct j as [|[|[|j]]]; [exact E1|exact E2|exact E3|lia]. }
  split; [reflexivity|]. split; [|discriminate].
  split; [|reflexivity]. intros _ r Hr.
  destruct Hr as [<-|[<-|[<-|[<-|[]]]]]; assumption.
Qed.

Lemma executeTranslationTask_four_attempts_witness :
  executeTranslationTask opts_a (all_fail ++ [RespText (lit "x")]) =
    executeTranslationTask opts_a all_fail /\
  (executeTranslationTask opts_a all_fail = None <->
     forall r, In r all_fail -> translateWithGoogleAPI opts_a r = None) /\
  (forall v, executeTranslationTask opts_a all_fail = Some v ->
     exists i, i < 4 /\ translateWithGoogleAPI opts_a (nth i all_fail RespFail) = Some v /\
       forall j, j < i -> translateWithGoogleAPI opts_a (nth j all_fail RespFail) = None).
Proof.
  apply (executeTranslationTask_four_attempts opts_a all_fail [RespText (lit "x")]).
  reflexivity.
Defined.

Lemma trimStart_length s : length (trimStart s) <= length s.
Proof.
  induction s as [|c s IH]; simpl; [lia|]. destruct (isWhite c); simpl; lia.
Qed.

Lemma trim_length s : length (trim s) <= length s.
Proof.
  unfold trim. rewrite length_rev. etransitivity; [apply trimStart_length|].
  rewrite length_rev. apply trimStart_length.
Qed.

Lemma replace_newlines_length b s : length (replace_newlines b s) <= length s.
Proof.
  revert b. induction s as [|c s IH]; intro b; simpl; [lia|].
  pose proof (IH true). pose proof (IH false).
  destruct (is_newline c); [destruct b|]; simpl; lia.
Qed.

Lemma trim_nil_truthy s : truthy s = false -> truthy (trim s) = false.
Proof. destruct s; [reflexivity|discriminate]. Qed.

(** Extra X8: for the pair ja/zh, [translateWithGoogleAPI] fails whatever
    the response when the processed query (trimmed, each run of CR/LF
    replaced by one space) is longer than 5000 code units; a text of at
    most 5000 code units is never rejected for its length: a response with
    the string [s] yields [s], or the source text when [s] is empty or
    blank; and a successful call never yields a blank string for a source
    text that is not blank. *)
Theorem translateWithGoogleAPI_length_and_fallback o :
  unsupported (sourceLanguage o) (targetLanguage o) = false ->
  (5000 < length (collapse_newlines (trim (text o))) ->
     forall r, translateWithGoogleAPI o r = None) /\
  (length (text o) <= 5000 ->
     forall s, translateWithGoogleAPI o (RespText s) =
               Some (if truthy (trim s) then s else text o)) /\
  (truthy (trim (text o)) = true ->
     forall r v, translateWithGoogleAPI o r = Some v -> truthy (trim v) = true).
Proof.
  intro U. unfold translateWithGoogleAPI. rewrite U. split; [|split].
  - intros L r. apply Nat.ltb_lt in L. rewrite L. reflexivity.
  - intros L s.
    assert (L' : (5000 <? length (collapse_newlines (trim (text o)))) = false).
    { apply Nat.ltb_ge. unfold collapse_newlines.
      pose proof (replace_newlines_length false (trim (text o))).
      pose proof (trim_length (text o)). lia. }
    rewrite L'. destruct (truthy s) eqn:Ts; cbn [negb].
    + destruct (truthy (trim s)); reflexivity.
    + rewrite (trim_nil_truthy s Ts). reflexivity.
  - intros T r v. destruct (_ <? _); [discriminate|].
    destruct r as [s|]; [|discriminate].
    destruct (truthy s) eqn:Ts; cbn [negb].
    + destruct (truthy (trim s)) eqn:Tt; cbn [negb]; intro H; injection H as <-; assumption.
    + intro H. injection H as <-. exact T.
Qed.

Lemma translateWithGoogleAPI_length_and_fallback_witness :
  (5000 < length (collapse_newlines (trim (text opts_a))) ->
     forall r, translateWithGoogleAPI opts_a r = None) /\
  (length (text opts_a) <= 5000 ->
     forall s, translateWithGoogleAPI opts_a (RespText s) =
               Some (if truthy (trim s) then s else text opts_a)) /\
  (truthy (trim (text opts_a)) = true ->
     forall r v, translateWithGoogleAPI opts_a r = Some v -> truthy (trim v) = true).
Proof. apply (translateWithGoogleAPI_length_and_fallback opts_a). reflexivity. Defined.

(* ------------------------------------------------------------------ *)
(** ** [translateBatch]: what the returned array holds *)

Lemma set_slot_length l i v : length (set_slot l i v) = length l.
Proof.
  revert i. induction l as [|x l IH]; intros [|i]; simpl; auto.
Qed.

Lemma set_slot_hit l i v : i < length l -> nth_error (set_slot l i v) i = Some (Some v).
Proof.
  revert i. induction l as [|x l IH]; intros [|i] H; simpl in *; try lia; auto.
  apply IH. lia.
Qed.

Lemma set_slot_other l i v j : j <> i -> nth_error (set_slot l i v) j = nth_error l j.
Proof.
  revert i j. induction l as [|x l IH]; intros [|i] [|j] H; simpl; auto; try lia; apply IH; lia.
Qed.

Lemma set_slot_sound l i v j x :
  nth_error (set_slot l i v) j = Some x -> (j = i /\ x = Some v) \/ nth_error l j = Some x.
Proof.
  destruct (Nat.eq_dec j i) as [->|N].
  - destruct (Nat.lt_ge_cases i (length l)) as [L|L].
    + rewrite (set_slot_hit l i v L). intro H. injection H as <-. left. auto.
    + intro H. exfalso.
      assert (H' : i < length (set_slot l i v)) by (apply nth_error_Some; congruence).
      rewrite set_slot_length in H'. lia.
  - rewrite (set_slot_other l i v j N). auto.
Qed.

Lemma fill_length brs : forall results, length (fill results brs) = length results.
Proof.
  induction brs as [|iv brs IH]; intro results; simpl; [reflexivity|].
  unfold fill in *. simpl. rewrite IH. apply set_slot_length.
Qed.

Lemma fill_sound brs : forall results j x,
  nth_error (fill results brs) j = Some x ->
  nth_error results j = Some x \/ exists iv, In iv brs /\ fst iv = j /\ x = Some (snd iv).
Proof.
  induction brs as [|iv brs IH]; intros results j x H; [left; exact H|].
  unfold fill in H. simpl in H. apply IH in H as [H|(iv' & Hi & Hj & Hx)].
  - apply set_slot_sound in H as [[-> ->]|H]; [right; exists iv; simpl; auto|left; exact H].
  - right. exists iv'. simpl. auto.
Qed.

Lemma fill_keeps brs : forall results j,
  (exists v, nth_error results j = Some (Some v)) ->
  exists v, nth_error (fill results brs) j = Some (Some v).
Proof.
  induction brs as [|iv brs IH]; intros results j [v H]; [exists v; exact H|].
  unfold fill. simpl. apply IH.
  destruct (Nat.eq_dec j (fst iv)) as [->|N].
  - exists (snd iv). apply set_slot_hit. apply nth_error_Some. congruence.
  - exists v. rewrite set_slot_other; assumption.
Qed.

Lemma fill_hits brs : forall results,
  (forall iv, In iv brs -> fst iv < length results) ->
  forall iv, In iv brs -> exists v, nth_error (fill results brs) (fst iv) = Some (Some v).
Proof.
  induction brs as [|iv0 brs IH]; intros results Hl iv Hi; [contradiction|].
  unfold fill. simpl. destruct Hi as [<-|Hi].
  - apply fill_keeps. exists (snd iv0). apply set_slot_hit. apply Hl. left. reflexivity.
  - apply IH; [|exact Hi]. intros iv' Hi'. rewrite set_slot_length. apply Hl. right. exact Hi'.
Qed.

Lemma await_all_sound tr batch : forall brs,
  await_all tr batch = Some brs ->
  forall iv, In iv brs -> exists t, In t batch /\ tindex t = fst iv /\ tr (ttext t) = Some (snd iv).
Proof.
  induction batch as [|t batch IH]; simpl; intros brs H iv Hi.
  - injection H as <-. contradiction.
  - destruct (tr (ttext t)) as [v|] eqn:E; [|discriminate].
    destruct (await_all tr batch) as [rs|] eqn:E'; [|discriminate].
    injection H as <-. destruct Hi as [<-|Hi].
    + exists t. simpl. auto.
    + destruct (IH rs eq_refl iv Hi) as (t' & A & B & C). exists t'. auto.
Qed.

Lemma await_all_complete tr batch :
  (forall t, In t batch -> tr (ttext t) <> None) ->
  exists brs, await_all tr batch = Some brs /\ map fst brs = map tindex batch.
Proof.
  induction batch as [|t batch IH]; simpl; intro H; [exists []; auto|].
  destruct (tr (ttext t)) as [v|] eqn:E; [|exfalso; apply (H t); auto].
  destruct IH as (brs & A & B); [intros t' Ht'; apply H; auto|].
  rewrite A. exists ((tindex t, v) :: brs). simpl. rewrite B. auto.
Qed.

Lemma in_firstn_l {A} (l : list A) n x : In x (firstn n l) -> In x l.
Proof. intro H. rewrite <- (firstn_skipn n l). apply in_or_app. left. exact H. Qed.

Lemma in_skipn_l {A} (l : list A) n x : In x (skipn n l) -> In x l.
Proof. intro H. rewrite <- (firstn_skipn n l). apply in_or_app. right. exact H. Qed.

Lemma collect_tasks_spec sl tl texts : forall c i0 c' results tasks,
  collect_tasks c sl tl i0 texts = (c', results, tasks) ->
  length results = length texts /\
  (forall j v, nth_error results j = Some (Some v) ->
     exists txt, nth_error texts j = Some txt /\ sget (cache c) (getKey sl tl txt) = Some v) /\
  (forall t, In t tasks ->
     i0 <= tindex t /\ nth_error texts (tindex t - i0) = Some (ttext t) /\
     tlength t = length (ttext t) /\
     truthy_opt (sget (cache c) (getKey sl tl (ttext t))) = false) /\
  (forall j, j < length texts ->
     (exists v, nth_error results j = Some (Some v)) \/
     exists t, In t tasks /\ tindex t = i0 + j).
Proof.
  induction texts as [|txt rest IH]; intros c i0 c' results tasks H; simpl in H.
  - injection H as <- <- <-. simpl. split; [reflexivity|].
    split; [intros [|j] v E; discriminate|]. split; [contradiction|]. intros j L. lia.
  - pose proof (lru_get_cache c sl tl txt) as [Gc Gv].
    destruct (lru_get c sl tl txt) as [c1 cr] eqn:G. cbn [fst snd] in Gc, Gv.
    destruct (collect_tasks c1 sl tl (S i0) rest) as [[c2 rs] ts] eqn:C.
    destruct (IH c1 (S i0) c2 rs ts C) as (A & B & D & E). rewrite Gc in B, D.
    destruct (truthy_opt cr) eqn:T; injection H as <- <- <-.
    + split; [simpl; rewrite A; reflexivity|]. split; [|split].
      * intros [|j] v Hj; simpl in Hj.
        -- injection Hj as ->. exists txt. simpl. split; [reflexivity|]. congruence.
        -- destruct (B j v Hj) as (x & X & Y). exists x. auto.
      * intros t Ht. destruct (D t Ht) as (D1 & D2 & D3 & D4).
        split; [lia|]. split; [|auto].
        replace (tindex t - i0) with (S (tindex t - S i0)) by lia. exact D2.
      * intros [|j] L.
        -- left. destruct cr as [v|]; [|discriminate]. exists v. reflexivity.
        -- simpl in L. destruct (E j ltac:(lia)) as [X|(t & X & Y)]; [left; exact X|].
           right. exists t. split; [exact X|lia].
    + split; [simpl; rewrite A; reflexivity|]. split; [|split].
      * intros [|j] v Hj; simpl in Hj; [discriminate|].
        destruct (B j v Hj) as (x & X & Y). exists x. auto.
      * intros t [<-|Ht]; cbn [tindex ttext tlength].
        -- split; [lia|]. rewrite Nat.sub_diag. split; [reflexivity|]. split; [reflexivity|].
           rewrite <- Gv. exact T.
        -- destruct (D t Ht) as (D1 & D2 & D3 & D4).
           split; [lia|]. split; [|auto].
           replace (tindex t - i0) with (S (tindex t - S i0)) by lia. exact D2.
      * intros [|j] L.
        -- right. exists (mkTask i0 txt (length txt)). split; [left; reflexivity|].
           simpl. lia.
        -- simpl in L. destruct (E j ltac:(lia)) as [X|(t & X & Y)]; [left; exact X|].
           right. exists t. split; [right; exact X|lia].
Qed.

Lemma fold_tlength l a :
  fold_left (fun sum task => sum + tlength task) l a = a + list_sum (map tlength l).
Proof.
  revert a. induction l as [|t l IH]; intro a; simpl; [lia|]. rewrite IH. lia.
Qed.

Lemma list_sum_firstn l n : list_sum (firstn n l) <= list_sum l.
Proof.
  revert n. induction l as [|x l IH]; intros [|n]; simpl; try lia.
  specialize (IH n). lia.
Qed.

Lemma list_sum_skipn l n : list_sum (skipn n l) <= list_sum l.
Proof.
  revert n. induction l as [|x l IH]; intros [|n]; simpl; try lia.
  specialize (IH n). lia.
Qed.

Lemma sum_lengths_batch tasks i k :
  sum_lengths (firstn k (skipn i tasks)) <= sum_lengths tasks.
Proof.
  unfold sum_lengths. rewrite !fold_tlength, <- firstn_map, <- skipn_map.
  etransitivity; [apply list_sum_firstn|]. simpl. apply list_sum_skipn.
Qed.

Lemma batch_loop_sound tr dyn tasks fuel : forall i results res,
  batch_loop tr dyn tasks fuel i results = Some res ->
  length res = length results /\
  forall j x, nth_error res j = Some x ->
    nth_error results j = Some x \/
    exists t v, In t tasks /\ tindex t = j /\ x = Some v /\ tr (ttext t) = Some v.
Proof.
  induction fuel as [|f IH]; intros i results res H; simpl in H.
  - injection H as <-. split; [reflexivity|]. auto.
  - destruct (i <? length tasks); [|injection H as <-; split; [reflexivity|]; auto].
    match type of H with
    | match await_all tr ?b with _ => _ end = _ =>
        destruct (await_all tr b) as [brs|] eqn:Aw; [|discriminate];
        pose proof (await_all_sound tr b brs Aw) as Sb
    end.
    fold (fill results brs) in H.
    destruct (IH _ _ _ H) as [L S]. split; [rewrite L; apply fill_length|].
    intros j x Hj. destruct (S j x Hj) as [Hf|Ht]; [|right; exact Ht].
    apply fill_sound in Hf as [Hf|(iv & Hi & Hf & ->)]; [left; exact Hf|].
    right. destruct (Sb iv Hi) as (t & Ti & Tx & Tv). exists t, (snd iv).
    split; [|split; [congruence|split; [reflexivity|exact Tv]]].
    apply in_firstn_l in Ti. apply in_firstn_l in Ti. apply in_skipn_l in Ti. exact Ti.
Qed.

Lemma batch_loop_complete tr dyn tasks fuel : forall i results,
  1 <= dyn ->
  (forall t, In t tasks -> tr (ttext t) <> None) ->
  sum_lengths tasks <= 10000 ->
  (forall t, In t tasks -> tindex t < length results) ->
  length tasks <= i + fuel * dyn ->
  exists res, batch_loop tr dyn tasks fuel i results = Some res /\
    (forall j, (exists v, nth_error results j = Some (Some v)) ->
               exists v, nth_error res j = Some (Some v)) /\
    (forall t, In t (skipn i tasks) -> exists v, nth_error res (tindex t) = Some (Some v)).
Proof.
  induction fuel as [|f IH]; intros i results Hd Htr Hs Hl Hf; cbn [batch_loop].
  - exists results. split; [reflexivity|]. split; [auto|].
    intros t Ht. rewrite skipn_all2 in Ht by lia. contradiction.
  - destruct (i <? length tasks) eqn:Li.
    2:{ exists results. split; [reflexivity|]. split; [auto|].
        apply Nat.ltb_ge in Li. intros t Ht. rewrite skipn_all2 in Ht by lia. contradiction. }
    assert (Hb : (10000 <? sum_lengths (firstn dyn (skipn i tasks))) = false).
    { apply Nat.ltb_ge. etransitivity; [apply sum_lengths_batch|exact Hs]. }
    rewrite Hb, firstn_firstn, Nat.min_id.
    destruct (await_all_complete tr (firstn dyn (skipn i tasks))) as (brs & Aw & Fs).
    { intros t Ht. apply Htr. apply in_firstn_l in Ht. apply in_skipn_l in Ht. exact Ht. }
    rewrite Aw. fold (fill results brs).
    assert (Hbrs : forall iv, In iv brs ->
              exists t, In t (firstn dyn (skipn i tasks)) /\ tindex t = fst iv).
    { intros iv Hi. apply (in_map fst) in Hi. rewrite Fs in Hi.
      apply in_map_iff in Hi as (t & Ht & Hi). exists t. auto. }
    destruct (IH (i + dyn) (fill results brs)) as (res & R & K & T); auto.
    { intros t Ht. rewrite fill_length. auto. }
    { lia. }
    exists res. split; [exact R|]. split.
    + intros j Hj. apply K. apply fill_keeps. exact Hj.
    + intros t Ht. rewrite <- (firstn_skipn dyn (skipn i tasks)) in Ht.
      apply in_app_or in Ht as [Ht|Ht].
      * apply K. assert (Hin : In (tindex t) (map fst brs))
          by (rewrite Fs; apply in_map; exact Ht).
        apply in_map_iff in Hin as (iv & E & Hiv). rewrite <- E.
        apply fill_hits; [|exact Hiv].
        intros iv' Hiv'. destruct (Hbrs iv' Hiv') as (t' & Ht' & E').
        rewrite <- E'. apply Hl. apply in_firstn_l in Ht'. apply in_skipn_l in Ht'.
        exact Ht'.
      * apply T. rewrite skipn_skipn in Ht. rewrite Nat.add_comm. exact Ht.
Qed.

Lemma collect_tasks_tlength_sum sl tl texts : forall c i0 c' results tasks,
  collect_tasks c sl tl i0 texts = (c', results, tasks) ->
  list_sum (map tlength tasks) <= list_sum (map (@length N) texts).
Proof.
  induction texts as [|txt rest IH]; intros c i0 c' results tasks H; simpl in H.
  - injection H as <- <- <-. simpl. lia.
  - destruct (lru_get c sl tl txt) as [c1 cr].
    destruct (collect_tasks c1 sl tl (S i0) rest) as [[c2 rs] ts] eqn:C.
    specialize (IH _ _ _ _ _ C).
    destruct (truthy_opt cr); injection H as <- <- <-; simpl; lia.
Qed.

(** Extra X9: when [translateBatch(texts, 'ja', 'zh')] resolves, the array
    has one slot per input text, and every filled slot [i] holds either the
    value the result cache had for [texts[i]] or what [translate] resolved
    to on [texts[i]]: no slot ever receives the translation of another
    text. *)
Theorem translateBatch_slots_sound rc texts tr res :
  translateBatch rc ja zh texts tr = Some res ->
  length res = length texts /\
  forall i v, nth_error res i = Some (Some v) ->
    exists txt, nth_error texts i = Some txt /\
      (sget (cache rc) (getKey ja zh txt) = Some v \/ tr txt = Some v).
Proof.
  unfold translateBatch. replace (unsupported ja zh) with false by reflexivity.
  destruct (collect_tasks rc ja zh 0 texts) as [[c' results] tasks] eqn:C.
  destruct (collect_tasks_spec ja zh texts rc 0 c' results tasks C) as (A & B & D & _).
  intro H. destruct (batch_loop_sound _ _ _ _ _ _ _ H) as [L S].
  split; [congruence|]. intros i v Hi.
  destruct (S i _ Hi) as [Hr|(t & v' & Ht & Ei & Ev & Tv)].
  - destruct (B i v Hr) as (txt & X & Y). exists txt. auto.
  - injection Ev as <-. destruct (D t Ht) as (_ & D2 & _ & _).
    rewrite Nat.sub_0_r, Ei in D2. exists (ttext t). auto.
Qed.

Lemma translateBatch_slots_sound_witness :
  length [Some (lit "a"); Some (lit "b")] = length texts_ab /\
  forall i v, nth_error [Some (lit "a"); Some (lit "b")] i = Some (Some v) ->
    exists txt, nth_error texts_ab i = Some txt /\
      (sget (cache defaultLRU) (getKey ja zh txt) = Some v \/ Some txt = Some v).
Proof.
  apply (translateBatch_slots_sound defaultLRU texts_ab (fun t => Some t)).
  vm_compute. reflexivity.
Defined.

(** Extra X10: if the input texts total at most 10000 code units and
    [translate] resolves on every text the result cache does not hold,
    [translateBatch(texts, 'ja', 'zh')] resolves with every slot filled. *)
Theorem translateBatch_fills_all_within_budget rc texts tr :
  (forall txt, In txt texts ->
     truthy_opt (sget (cache rc) (getKey ja zh txt)) = false -> tr txt <> None) ->
  list_sum (map (@length N) texts) <= 10000 ->
  exists res, translateBatch rc ja zh texts tr = Some res /\
    length res = length texts /\
    forall i, i < length texts -> exists v, nth_error res i = Some (Some v).
Proof.
  intros Htr Hs. unfold translateBatch. replace (unsupported ja zh) with false by reflexivity.
  destruct (collect_tasks rc ja zh 0 texts) as [[c' results] tasks] eqn:C.
  destruct (collect_tasks_spec ja zh texts rc 0 c' results tasks C) as (A & B & D & E).
  assert (Hsum : sum_lengths tasks <= list_sum (map (@length N) texts)).
  { unfold sum_lengths. rewrite fold_tlength. simpl.
    apply (collect_tasks_tlength_sum ja zh texts rc 0 c' results tasks C). }
  destruct (batch_loop_complete tr (dynamicBatchSize (length texts) tasks) tasks
              (S (length tasks)) 0 results) as (res & R & K & T).
  - unfold dynamicBatchSize. lia.
  - intros t Ht. destruct (D t Ht) as (_ & D2 & _ & D4). rewrite Nat.sub_0_r in D2.
    apply Htr; [apply nth_error_In in D2; exact D2|exact D4].
  - lia.
  - intros t Ht. destruct (D t Ht) as (_ & D2 & _ & _). rewrite Nat.sub_0_r in D2.
    rewrite A. apply nth_error_Some. congruence.
  - assert (10 <= dynamicBatchSize (length texts) tasks) by (unfold dynamicBatchSize; lia).
    nia.
  - exists res. split; [exact R|].
    destruct (batch_loop_sound _ _ _ _ _ _ _ R) as [L _]. split; [congruence|].
    intros i Li. destruct (E i Li) as [X|(t & Ht & Ei)]; [apply K; exact X|].
    replace i with (tindex t) by lia. apply T. exact Ht.
Qed.

Lemma translateBatch_fills_all_within_budget_witness :
  exists res, translateBatch defaultLRU ja zh texts_ab (fun t => Some t) = Some res /\
    length res = length texts_ab /\
    forall i, i < length texts_ab -> exists v, nth_error res i = Some (Some v).
Proof.
  apply (translateBatch_fills_all_within_budget defaultLRU texts_ab (fun t => Some t)).
  - intros txt _ _. discriminate.
  - vm_compute. lia.
Defined.

(** Extra X11: right after [set(sl, tl, text, v)], [get(sl, tl, text)]
    returns [v]. The lookup of any other key gives what it gave before or
    [undefined] (the evicted key); when the key was already present or the
    cache was below [maxSize], every other lookup is unchanged. *)
Theorem lru_set_then_get c sl tl tx v sl' tl' tx' :
  snd (lru_get (lru_set c sl tl tx v) sl tl tx) = Some v /\
  (getKey sl' tl' tx' <> getKey sl tl tx ->
     (snd (lru_get (lru_set c sl tl tx v) sl' tl' tx') = snd (lru_get c sl' tl' tx') \/
      snd (lru_get (lru_set c sl tl tx v) sl' tl' tx') = None) /\
     (shas (cache c) (getKey sl tl tx) = true \/ lru_size c < maxSize c ->
      snd (lru_get (lru_set c sl tl tx v) sl' tl' tx') = snd (lru_get c sl' tl' tx'))).
Proof.
  rewrite !(proj2 (lru_get_cache _ _ _ _)). split; [apply lru_set_get|].
  intro Hk. split; [apply lru_set_other; exact Hk|].
  apply str_eqb_neq in Hk. intros Hc. unfold lru_set.
  destruct (shas (cache c) (getKey sl tl tx)) eqn:Hh.
  - simpl. rewrite sget_sset, Hk. reflexivity.
  - destruct Hc as [Hc|Hc]; [discriminate|]. unfold lru_size in Hc.
    replace (maxSize c <=? length (cache c)) with false by (symmetry; apply Nat.leb_gt; exact Hc).
    simpl. rewrite sget_sset, Hk. reflexivity.
Qed.

Lemma lru_set_then_get_witness :
  snd (lru_get (lru_set defaultLRU ja zh (lit "a") (lit "x")) ja zh (lit "a")) = Some (lit "x") /\
  snd (lru_get (lru_set defaultLRU ja zh (lit "a") (lit "x")) ja zh (lit "b")) =
    snd (lru_get defaultLRU ja zh (lit "b")).
Proof.
  destruct (lru_set_then_get defaultLRU ja zh (lit "a") (lit "x") ja zh (lit "b")) as [A B].
  split; [exact A|].
  apply (proj2 (B ltac:(intro H; vm_compute in H; congruence))).
  right. unfold lru_size. cbn. lia.
Defined.

Lemma map_set_single {V} (m : list (nat * V)) sid v :
  (m = [] \/ exists x, m = [(sid, x)]) -> map_set Nat.eqb m sid v = [(sid, v)].
Proof.
  intros [->|[x ->]]; simpl; [reflexivity|]. rewrite Nat.eqb_refl. reflexivity.
Qed.

Lemma loop_step_single sid n h s :
  progress h = progressRef h ->
  (sessions h = [] \/ exists x, sessions h = [(sid, x)]) ->
  length (subs s) = n -> pending s = [] -> finished s = false ->
  sess_ok h s (wave s) ->
  single_inv sid n (loop_step h sid s).
Proof.
  intros Hp Hs Hn Hpe Hf Ok. unfold loop_step.
  destruct Ok as [(Hc & Hr)|(Hc & Ht & Hk)].
  - rewrite Hc, andb_false_r. unfold put_session. split; [exact Hp|]. right.
    eexists. split; [apply map_set_single; exact Hs|]. cbn [subs wave].
    split; [exact Hn|]. left. auto.
  - rewrite Hc, andb_true_r. rewrite Hpe in Hk. cbn [length] in Hk.
    destruct (progressRef h) as [c t] eqn:Hr. cbn [fst snd] in Ht, Hk.
    destruct (wave s <? length (subs s)) eqn:W.
    + apply Nat.ltb_lt in W.
      pose proof (dispatch_count s t (seq (wave s) (Nat.min 5 (length (subs s) - wave s)))
                    h c Hc Hp Hr) as D.
      destruct (dispatch h s _) as [h1 ps].
      destruct D as (A & B & C & c' & D & E & F). rewrite length_seq in F.
      unfold put_session. split; cbn [progress progressRef]; [congruence|]. right.
      eexists. split; [apply map_set_single; rewrite C; exact Hs|].
      cbn [subs wave pending]. split; [exact Hn|]. right.
      cbn [isCancelled progressRef]. rewrite A, E. cbn [fst snd].
      split; [reflexivity|]. split; [exact Ht|]. cbn [subs pending wave]. lia.
    + apply Nat.ltb_ge in W. unfold put_session. cbn [progress progressRef sessions].
      split; [exact Hp|]. right.
      eexists. split; [apply map_set_single; exact Hs|].
      cbn [subs wave pending]. split; [exact Hn|]. right.
      cbn [isCancelled progressRef]. cbn [fst snd length].
      split; [first [reflexivity|exact Hc]|]. split; [exact Ht|]. cbn [subs pending wave length]. lia.
Qed.

Lemma bump_fields h :
  progressRef (bump h) = (S (fst (progressRef h)), snd (progressRef h)) /\
  progress (bump h) = progressRef (bump h) /\
  isCancelled (bump h) = isCancelled h /\ sessions (bump h) = sessions h.
Proof. unfold bump. destruct (progressRef h) as [c t]. repeat split. Qed.

Lemma set_text_fields h a v :
  progressRef (set_text h a v) = progressRef h /\ progress (set_text h a v) = progress h /\
  isCancelled (set_text h a v) = isCancelled h /\ sessions (set_text h a v) = sessions h.
Proof. repeat split. Qed.

Lemma cache_put_fields h k v :
  progressRef (cache_put h k v) = progressRef h /\ progress (cache_put h k v) = progress h /\
  isCancelled (cache_put h k v) = isCancelled h /\ sessions (cache_put h k v) = sessions h.
Proof. repeat split. Qed.

Lemma put_session_fields h sid s :
  progressRef (put_session h sid s) = progressRef h /\
  progress (put_session h sid s) = progress h /\
  isCancelled (put_session h sid s) = isCancelled h /\
  sessions (put_session h sid s) = map_set Nat.eqb (sessions h) sid s.
Proof. repeat split. Qed.

Lemma single_step sid n h e h' :
  single_inv sid n h -> not_start e = true -> hook_step h e = Some h' ->
  single_inv sid n h'.
Proof.
  intros (Hp & I) He Hst.
  destruct e as [sid' addrs tl|sid' index out|sid'|]; try discriminate; unfold hook_step in Hst.
  - destruct I as [(Hs & _)|(s & Hs & Hn & Ok)]; rewrite Hs in Hst; [discriminate|].
    rewrite nget_cons in Hst. destruct (Nat.eqb sid' sid) eqn:E; [|discriminate].
    apply Nat.eqb_eq in E. subst sid'.
    destruct (finished s); [discriminate|].
    destruct (find_pending (pending s) index) as [txt|] eqn:P; [|discriminate].
    pose proof (remove_pending_length _ _ _ P) as L.
    set (s' := mkSession (subs s) (targetLang s) (wave s)
                         (remove_pending (pending s) index) false) in Hst.
    assert (Hs1 : sessions (put_session h sid s') = [(sid, s')])
      by (unfold put_session; cbn [sessions]; rewrite Hs; simpl; rewrite Nat.eqb_refl;
          reflexivity).
    assert (Ok' : sess_ok h s' (wave s' + 5)).
    { destruct Ok as [Ok|(Hc & Ht & Hk)]; [left; exact Ok|right].
      unfold s'. cbn [subs pending wave]. split; [exact Hc|]. split; [exact Ht|]. lia. }
    destruct out as [v|].
    + destruct (isCancelled (put_session h sid s')) eqn:Hc.
      * injection Hst as <-. split; [exact Hp|]. right. exists s'. split; [exact Hs1|].
        split; [exact Hn|]. exact Ok'.
      * injection Hst as <-.
        destruct (bump_fields (cache_put (set_text (put_session h sid s') (addr_of s index) v)
                                (hookKey txt (targetLang s)) v)) as (B1 & B2 & B3 & B4).
        destruct (cache_put_fields (set_text (put_session h sid s') (addr_of s index) v)
                    (hookKey txt (targetLang s)) v) as (C1 & C2 & C3 & C4).
        destruct (set_text_fields (put_session h sid s') (addr_of s index) v)
          as (D1 & D2 & D3 & D4).
        destruct (put_session_fields h sid s') as (E1 & E2 & E3 & E4).
        split; [exact B2|]. right. exists s'.
        rewrite B4, C4, D4. split; [exact Hs1|]. split; [exact Hn|].
        unfold sess_ok. rewrite B1, B3, C1, C3, D1, D3, E1, E3. rewrite E3 in Hc.
        destruct Ok as [(Hc' & _)|(_ & Ht & Hk)]; [congruence|]. right.
        cbn [fst snd]. split; [exact Hc|].
        unfold s'. cbn [pending subs wave]. split; [exact Ht|]. lia.
    + injection Hst as <-. unfold set_text, put_session. split; [exact Hp|]. right.
      exists s'. split; [exact Hs1|]. split; [exact Hn|]. exact Ok'.
  - destruct I as [(Hs & _)|(s & Hs & Hn & Ok)]; rewrite Hs in Hst; [discriminate|].
    rewrite nget_cons in Hst. destruct (Nat.eqb sid' sid) eqn:E; [|discriminate].
    apply Nat.eqb_eq in E. subst sid'.
    destruct (finished s) eqn:Hf; [discriminate|].
    destruct (pending s) eqn:Pe; [|discriminate]. injection Hst as <-.
    apply loop_step_single; try reflexivity; [exact Hp|right; eauto|exact Hn|].
    cbn [wave]. destruct Ok as [Ok|(Hc & Ht & Hk)]; [left; exact Ok|right].
    cbn [subs pending]. rewrite Pe in Hk. auto.
  - injection Hst as <-. unfold cancelTranslation. split; [reflexivity|].
    destruct I as [(Hs & _ & Hn)|(s & Hs & Hn & _)]; [left; auto|right].
    exists s. cbn [sessions]. split; [exact Hs|]. split; [exact Hn|]. left. auto.
Qed.

Lemma single_run sid n : forall es h h',
  single_inv sid n h -> forallb not_start es = true -> hook_run h es = Some h' ->
  single_inv sid n h'.
Proof.
  induction es as [|e es IH]; simpl; intros h h' I Hes Hr.
  - injection Hr as <-. exact I.
  - apply andb_true_iff in Hes as [He Hes].
    destruct (hook_step h e) as [h1|] eqn:S; [|discriminate].
    exact (IH h1 h' (single_step sid n h e h1 I He S) Hes Hr).
Qed.

(** Extra X12: take one call [translateSubtitles(subtitles, tl)] on a fresh
    hook, followed by any interleaving of its items settling, its waves
    ending and [cancelTranslation] calls, but no second
    [translateSubtitles] call. At every point [translationProgress.completed]
    is at most [translationProgress.total]; the total is
    [subtitles.length] while not cancelled, and the progress is [{0, 0}]
    once cancelled. *)
Theorem single_call_progress_bounded m sid addrs tl es h :
  forallb not_start es = true ->
  hook_run (hook0 m) (HStart sid addrs tl :: es) = Some h ->
  fst (progress h) <= snd (progress h) /\
  (isCancelled h = false -> snd (progress h) = length addrs) /\
  (isCancelled h = true -> progress h = (0, 0)).
Proof.
  intros Hes Hr. cbn [hook_run] in Hr.
  assert (I0 : forall h1, hook_step (hook0 m) (HStart sid addrs tl) = Some h1 ->
                          single_inv sid (length addrs) h1).
  { intros h1 E. simpl in E. destruct addrs as [|a0 rest].
    - injection E as <-. split; [reflexivity|]. left. auto.
    - injection E as <-.
      apply loop_step_single; try reflexivity; [left; reflexivity|].
      right. cbn. split; [reflexivity|]. split; [reflexivity|]. lia. }
  destruct (hook_step (hook0 m) (HStart sid addrs tl)) as [h1|] eqn:E; [|discriminate].
  destruct (single_run sid (length addrs) es h1 h (I0 h1 eq_refl) Hes Hr) as (Hp & I).
  rewrite Hp.
  destruct I as [(_ & Hr0 & Hn)|(s & _ & Hn & [(Hc & Hr0)|(Hc & Ht & Hk)])].
  - rewrite Hr0, Hn. cbn. split; [lia|]. split; reflexivity.
  - rewrite Hr0. cbn. split; [lia|]. split; [congruence|reflexivity].
  - split; [lia|]. split; [congruence|]. congruence.
Qed.

Lemma single_call_progress_bounded_witness :
  exists h, hook_run (hook0 heap_a) (HStart 1 [0; 1] zh :: cancel_mid_wave_events) = Some h /\
    fst (progress h) <= snd (progress h) /\
    (isCancelled h = false -> snd (progress h) = length [0; 1]) /\
    (isCancelled h = true -> progress h = (0, 0)).
Proof.
  destruct (hook_run (hook0 heap_a) (HStart 1 [0; 1] zh :: cancel_mid_wave_events)) as [h|] eqn:E.
  - exists h. split; [reflexivity|].
    apply (single_call_progress_bounded heap_a 1 [0; 1] zh cancel_mid_wave_events h); [reflexivity|exact E].
  - vm_compute in E. discriminate.
Defined.
